(** * Lowering configuration attributes of the IREE codegen dialect

    A shallow embedding of
    [compiler/src/iree/compiler/Codegen/Dialect/LoweringConfig.cpp]:
    the integer-list codec, the three attribute kinds with their builders,
    accessors and verifiers, the attachment helpers, and the function
    [getDistributionTileConfigFromLoweringConfig] that reconciles the first
    tiling level of all compute operations of a dispatch.

    The host framework (MLIR attributes, [SmallVector], [APInt]) is modelled
    as far as the file uses it.  A C++ assertion failure or an access outside
    a vector is an explicit [Trap] outcome of the [exec] monad; a null
    attribute handle is [None]. *)

From stdpp Require Import base numbers option list strings gmap.
From Stdlib Require Import ZArith Lia Permutation.

Set Warnings "-register-all".
Local Open Scope Z_scope.

(** ** Outcomes of code that may hit an assertion *)

Inductive Fault :=
  | BadCast          (* [cast<T>()] on an attribute of another kind *)
  | NotSignless      (* [IntegerAttr::getInt] on a signed or unsigned type *)
  | TooManyBits      (* [APInt::getSExtValue] on a value wider than int64 *)
  | NullAttribute    (* a method called on a null attribute handle *)
  | IndexOutOfRange. (* [SmallVector::operator[]] past the end *)

Inductive exec (A : Type) : Type :=
  | Done (a : A)
  | Trap (f : Fault).
Arguments Done {A} a.
Arguments Trap {A} f.

#[global] Instance exec_ret : MRet exec := fun A a => Done a.
#[global] Instance exec_bind : MBind exec := fun A B k m =>
  match m with
  | Done a => k a
  | Trap f => Trap f
  end.
#[global] Instance exec_fmap : FMap exec := fun A B g m =>
  match m with
  | Done a => Done (g a)
  | Trap f => Trap f
  end.

#[global] Instance Fault_eq_dec : EqDecision Fault.
Proof. solve_decision. Defined.
#[global] Instance exec_eq_dec {A} `{EqDecision A} : EqDecision (exec A).
Proof. solve_decision. Defined.

(** ** Machine integers *)

Definition int64_min : Z := - 2 ^ 63.
Definition int64_max : Z := 2 ^ 63 - 1.

(** The values an [int64_t] can hold. *)
Definition is_int64 (v : Z) : Prop := int64_min <= v <= int64_max.

#[global] Instance is_int64_dec v : Decision (is_int64 v).
Proof. unfold is_int64. apply _. Defined.

(** Conversion of an integer to [uint64_t], as on passing an [int64_t] to
    the [APInt(unsigned, uint64_t)] constructor. *)
Definition to_uint64 (v : Z) : Z := v mod 2 ^ 64.

(** [unsigned] arithmetic wraps modulo 2^32. *)
Definition unsigned_modulus : N := (2 ^ 32)%N.
Definition unsigned_add (a b : N) : N := ((a + b) mod unsigned_modulus)%N.

(** ** The attribute substrate *)

Module APInt.
Record t := make { BitWidth : N; VAL : Z }.

(** [APInt(numBits, val)]: the low [numBits] bits of [val]. *)
Definition get (numBits : N) (val : Z) : t :=
  {| BitWidth := numBits; VAL := to_uint64 val mod 2 ^ Z.of_N numBits |}.

(** The two's complement reading of the stored bits. *)
Definition signedValue (a : t) : Z :=
  let w := Z.of_N (BitWidth a) in
  let u := VAL a mod 2 ^ w in
  if u <? 2 ^ (w - 1) then u else u - 2 ^ w.

(** [getSExtValue]: asserts that the value fits 64 bits. *)
Definition getSExtValue (a : t) : exec Z :=
  let s := signedValue a in
  if decide (is_int64 s) then Done s else Trap TooManyBits.
End APInt.

Inductive SignednessSemantics := Signless | Signed | Unsigned.

Inductive Type_ :=
  | IndexType
  | IntegerType (width : N) (signedness : SignednessSemantics).

Definition isIndex (ty : Type_) : bool :=
  match ty with IndexType => true | _ => false end.

Definition isSignlessInteger (ty : Type_) : bool :=
  match ty with IntegerType _ Signless => true | _ => false end.

(** Attributes are immutable values.  Only the kinds the file tells apart
    are listed; [StringAttr] and [UnitAttr] stand for every kind that is
    neither an integer nor an array. *)
Inductive Attribute :=
  | IntegerAttr (ty : Type_) (value : APInt.t)
  | ArrayAttr (elems : list Attribute)
  | StringAttr (s : string)
  | UnitAttr.

(** A nullable [ArrayAttr] handle: [None] is the null attribute. *)
Abbreviation ArrayAttrRef := (option (list Attribute)).

Definition isa_IntegerAttr (attr : Attribute) : bool :=
  match attr with IntegerAttr _ _ => true | _ => false end.

Definition dyn_cast_ArrayAttr (attr : Attribute) : ArrayAttrRef :=
  match attr with ArrayAttr elems => Some elems | _ => None end.

Definition cast_ArrayAttr (attr : Attribute) : exec (list Attribute) :=
  match attr with ArrayAttr elems => Done elems | _ => Trap BadCast end.

Definition cast_IntegerAttr (attr : Attribute) : exec (Type_ * APInt.t) :=
  match attr with IntegerAttr ty v => Done (ty, v) | _ => Trap BadCast end.

(** [IntegerAttr::getInt]: asserts an index or signless type. *)
Definition getInt (a : Type_ * APInt.t) : exec Z :=
  if isIndex a.1 || isSignlessInteger a.1
  then APInt.getSExtValue a.2
  else Trap NotSignless.

(** ** Utility functions for common code patterns *)

Definition checkIntegerArrayAttr (arrayAttr : list Attribute) : bool :=
  negb (existsb (fun attr => negb (isa_IntegerAttr attr)) arrayAttr).

Definition getIndexIntegerArrayAttr (values : list Z) : list Attribute :=
  map (fun value => IntegerAttr IndexType (APInt.get 64 value)) values.

Definition getI64IntegerArrayAttr (values : list Z) : list Attribute :=
  map (fun value => IntegerAttr (IntegerType 64 Signless) (APInt.get 64 value))
      values.

(** [SmallVector::operator[]] used as an l-value. *)
Definition store {A} (vec : list A) (i : nat) (x : A) : exec (list A) :=
  if decide (i < length vec)%nat then Done (<[i := x]> vec)
  else Trap IndexOutOfRange.

(** [SmallVector::operator[]] used as an r-value. *)
Definition load {A} (vec : list A) (i : nat) : exec A :=
  match vec !! i with
  | Some x => Done x
  | None => Trap IndexOutOfRange
  end.

(** One turn of the loop of [getIntegerVals]:
    [values[attr.index()] = attr.value().cast<IntegerAttr>().getInt()]. *)
Definition getIntegerVals_step (acc : exec (list Z)) (attr : nat * Attribute)
  : exec (list Z) :=
  values ← acc;
  v ← cast_IntegerAttr attr.2 ≫= getInt;
  store values attr.1 v.

Definition enumerate {A} (l : list A) : list (nat * A) := imap pair l.

Definition getIntegerVals (arrayAttr : ArrayAttrRef) : exec (list Z) :=
  match arrayAttr with
  | None => Done []
  | Some elems =>
      foldl getIntegerVals_step
            (Done (replicate (length elems) 0)) (enumerate elems)
  end.

(** The element-wise decoder that [getIntegerVals] amounts to. *)
Definition decodeElement (attr : Attribute) : exec Z :=
  cast_IntegerAttr attr ≫= getInt.

(** ** Well-formedness as the verifiers' contract words it *)

Definition isInteger (attr : Attribute) : Prop :=
  exists ty value, attr = IntegerAttr ty value.

(** A flat sequence of integers: an array whose elements are all integers. *)
Definition isFlatIntegerSequence (attr : Attribute) : Prop :=
  exists elems, attr = ArrayAttr elems ∧ Forall isInteger elems.

(** Some entry of a present array fails [P]. *)
Definition someEntryNot (P : Attribute -> Prop) (arr : ArrayAttrRef) : Prop :=
  exists entries attr, arr = Some entries ∧ attr ∈ entries ∧ ¬ P attr.

(** ** Declarations generated from the dialect's table definitions

    The enumeration [DispatchLoweringPassPipeline] (underlying type
    [uint32_t]), its printer and the bound [kNumMaxParallelDims] are declared
    outside this file; the code below only relies on the enumerator [None]
    and on the two other names.  [pipelineKinds] lists the values of the
    declared enumerators. *)

Abbreviation DispatchLoweringPassPipeline := N.

Class Declarations := {
  pipelineKinds : list DispatchLoweringPassPipeline;
  DispatchLoweringPassPipeline_None : DispatchLoweringPassPipeline;
  stringifyEnum : DispatchLoweringPassPipeline -> string;
  kNumMaxParallelDims : N;
}.

(** ** The three attribute kinds and the operations carrying them *)

Record TranslationInfoAttr := {
  passPipeline : option DispatchLoweringPassPipeline;
  workloadPerWorkgroup : ArrayAttrRef;
}.

Record LoweringConfigAttr := {
  tileSizes : ArrayAttrRef;
  tileInterchange : ArrayAttrRef;
  nativeVectorSize : ArrayAttrRef;
}.

Record CompilationInfoAttr := {
  loweringConfig : option LoweringConfigAttr;
  translationInfo : option TranslationInfoAttr;
  workgroupSize : ArrayAttrRef;
}.

(** What an operation's attribute dictionary can hold under a name. *)
Inductive NamedAttr :=
  | Builtin (attr : Attribute)
  | TranslationInfo (attr : TranslationInfoAttr)
  | LoweringConfig (attr : LoweringConfigAttr)
  | CompilationInfo (attr : CompilationInfoAttr).

(** [IREE::Flow::PartitionableLoopsInterface]: given the maximal number of
    partitioned loops, the ids of the loops that may be distributed. *)
Record PartitionableLoopsInterface := {
  getPartitionableLoops : N -> list N;
}.

Record Operation := {
  opName : string;
  partitionableLoopsInterface : option PartitionableLoopsInterface;
  attrs : gmap string NamedAttr;
}.

(** [hal.executable.entry_point]: its attribute dictionary and its own
    optional [workgroup_size] attribute. *)
Record ExecutableEntryPointOp := {
  entryPointAttrs : gmap string NamedAttr;
  workgroup_size : ArrayAttrRef;
}.

Inductive Diagnostic :=
  | AttrError (message : string)                       (* [emitError() << ...] *)
  | OpError (anchor : Operation) (message : string).   (* [op->emitOpError(...)] *)

Inductive LogicalResult :=
  | success
  | failure (diag : Diagnostic).

Definition failed (r : LogicalResult) : bool :=
  match r with success => false | failure _ => true end.

Definition kConfigAttrName : string := "lowering_config".
Definition kTranslationInfoAttrName : string := "translation_info".
Definition kCompilationInfoAttrName : string := "compilation_info".

(** The number of levels a level-indexed field configures; none when the
    field is absent. *)
Definition numLevels (arr : ArrayAttrRef) : nat :=
  match arr with Some entries => length entries | None => 0%nat end.

(** The entry a level-indexed field holds for [level], if any. *)
Definition levelEntry (arr : ArrayAttrRef) (level : nat) : option Attribute :=
  match arr with Some entries => entries !! level | None => None end.

(** The code that [getTileSizeVals(level)] and
    [getTileInterchangeVals(level)] each run on their own field. *)
Definition levelVals (arr : ArrayAttrRef) (level : nat) : exec (list Z) :=
  match arr with
  | None => Done []
  | Some entries =>
      if decide (length entries <= level)%nat then Done []
      else attr ← load entries level;
           elems ← cast_ArrayAttr attr;
           getIntegerVals (Some elems)
  end.

(** [None] is declared, and no declared enumerator lies above it. *)
Definition NoneIsHighest `{Declarations} : Prop :=
  DispatchLoweringPassPipeline_None ∈ pipelineKinds
  ∧ Forall (fun kind => (kind <= DispatchLoweringPassPipeline_None)%N)
           pipelineKinds.

(** ** iree_codegen.translation_info *)

Section Attributes.
Context `{Declarations}.

(** [TranslationInfoAttr::get(context, passPipeline, workloadPerWorkgroup)] *)
Definition TranslationInfoAttr_get
    (pipeline : DispatchLoweringPassPipeline)
    (workload : list Z) : TranslationInfoAttr :=
  let pipelineAttr := Some pipeline in
  let workloadPerWorkgroupAttr := Some (getI64IntegerArrayAttr workload) in
  {| passPipeline := pipelineAttr;
     workloadPerWorkgroup := workloadPerWorkgroupAttr |}.

(** [getPassPipeline().getValue()]; a null pipeline attribute cannot be
    dereferenced. *)
Definition getDispatchLoweringPassPipeline (info : TranslationInfoAttr)
  : exec DispatchLoweringPassPipeline :=
  match passPipeline info with
  | Some v => Done v
  | None => Trap NullAttribute
  end.

Definition getWorkloadPerWorkgroupVals (info : TranslationInfoAttr)
  : exec (list Z) :=
  getIntegerVals (workloadPerWorkgroup info).

Definition TranslationInfoAttr_verify
    (pipeline : option DispatchLoweringPassPipeline)
    (workload : ArrayAttrRef) : LogicalResult :=
  match pipeline with
  | None => failure (AttrError "missing pass pipeline specification")
  | Some passPipelineValue =>
      if (DispatchLoweringPassPipeline_None <? passPipelineValue)%N
      then failure (AttrError ("invalid pass pipeline value : "
                               +:+ stringifyEnum passPipelineValue))
      else success
  end.

(** ** iree_codegen.lowering_config *)

(** [LoweringConfigAttr::get(context, tileSizes, tileInterchange,
    nativeVectorSize)] *)
Definition LoweringConfigAttr_get
    (sizes interchange : list (list Z)) (vectorSize : list Z)
  : LoweringConfigAttr :=
  let attrList := fun lst : list (list Z) =>
    map (fun sizes => ArrayAttr (getI64IntegerArrayAttr sizes)) lst in
  let tileSizesAttr := Some (attrList sizes) in
  let tileInterchangeAttr := Some (attrList interchange) in
  let nativeVectorSizeAttr := Some (getI64IntegerArrayAttr vectorSize) in
  {| tileSizes := tileSizesAttr;
     tileInterchange := tileInterchangeAttr;
     nativeVectorSize := nativeVectorSizeAttr |}.

(** [getTileSizeVals()]: all levels. *)
Definition getTileSizeValsAll (config : LoweringConfigAttr)
  : exec (list (list Z)) :=
  match tileSizes config with
  | None => Done []
  | Some tileSizesAttr =>
      foldl (fun acc attr =>
               sizes ← acc;
               vals ← cast_ArrayAttr attr ≫= (fun a => getIntegerVals (Some a));
               Done (sizes ++ [vals]))
            (Done []) tileSizesAttr
  end.

(** [getTileSizeVals(unsigned level)] *)
Definition getTileSizeVals (config : LoweringConfigAttr) (level : nat)
  : exec (list Z) :=
  match tileSizes config with
  | None => Done []
  | Some tileSizesAttr =>
      if decide (length tileSizesAttr <= level)%nat then Done []
      else attr ← load tileSizesAttr level;
           elems ← cast_ArrayAttr attr;
           getIntegerVals (Some elems)
  end.

(** [getTileInterchangeVals(unsigned level)] *)
Definition getTileInterchangeVals (config : LoweringConfigAttr) (level : nat)
  : exec (list Z) :=
  match tileInterchange config with
  | None => Done []
  | Some tileInterchangeAttr =>
      if decide (length tileInterchangeAttr <= level)%nat then Done []
      else attr ← load tileInterchangeAttr level;
           elems ← cast_ArrayAttr attr;
           getIntegerVals (Some elems)
  end.

Definition getNativeVectorSizeVals (config : LoweringConfigAttr)
  : exec (list Z) :=
  match nativeVectorSize config with
  | None => Done []
  | Some nativeVectorSizeAttr => getIntegerVals (Some nativeVectorSizeAttr)
  end.

(** The lambda [hasNonIntElems] of [LoweringConfigAttr::verify]. *)
Definition hasNonIntElems (sizes : list Attribute) : bool :=
  existsb (fun attr =>
             match dyn_cast_ArrayAttr attr with
             | None => true
             | Some arrayAttr => negb (checkIntegerArrayAttr arrayAttr)
             end) sizes.

Definition LoweringConfigAttr_verify
    (sizes interchange vectorSize : ArrayAttrRef) : LogicalResult :=
  match sizes with
  | None =>
      failure (AttrError
        "expected tile_sizes to be specified (even is specified as empty)")
  | Some sizesAttr =>
      if hasNonIntElems sizesAttr then
        failure (AttrError
          "expected all elements of tile_sizes to be a list of integers")
      else if match interchange with
              | Some interchangeAttr => hasNonIntElems interchangeAttr
              | None => false
              end then
        failure (AttrError
          "expected all elements of tile_interchange to be a list of integers")
      else match vectorSize with
           | Some vectorSizeAttr =>
               if negb (checkIntegerArrayAttr vectorSizeAttr) then
                 failure (AttrError
                   "expected native_vector_size to be a list of integer values")
               else success
           | None => success
           end
  end.

(** ** iree.compilation_info *)

(** [CompilationInfoAttr::get(context, tileSizes, interchange,
    nativeVectorSize, workgroupSize)] *)
Definition CompilationInfoAttr_get_tiling
    (sizes interchange : list (list Z)) (vectorSize wgSize : list Z)
  : CompilationInfoAttr :=
  let configAttr := LoweringConfigAttr_get sizes interchange vectorSize in
  let translationInfoAttr :=
    TranslationInfoAttr_get DispatchLoweringPassPipeline_None [] in
  let workgroupSizeAttr := Some (getI64IntegerArrayAttr wgSize) in
  {| loweringConfig := Some configAttr;
     translationInfo := Some translationInfoAttr;
     workgroupSize := workgroupSizeAttr |}.

(** [CompilationInfoAttr::get(context, tileSizes, interchange,
    nativeVectorSize, passPipeline, workloadPerWorkgroup, workgroupSize)] *)
Definition CompilationInfoAttr_get_full
    (sizes interchange : list (list Z)) (vectorSize : list Z)
    (pipeline : DispatchLoweringPassPipeline)
    (workload wgSize : list Z) : CompilationInfoAttr :=
  let configAttr := LoweringConfigAttr_get sizes interchange vectorSize in
  let translationInfoAttr := TranslationInfoAttr_get pipeline workload in
  let workgroupSizeAttr := Some (getI64IntegerArrayAttr wgSize) in
  {| loweringConfig := Some configAttr;
     translationInfo := Some translationInfoAttr;
     workgroupSize := workgroupSizeAttr |}.

(** [CompilationInfoAttr::get(context, configAttr, translationInfo,
    workgroupSize)]; both attribute handles may be null. *)
Definition CompilationInfoAttr_get_composed
    (configAttr : option LoweringConfigAttr)
    (translationInfoAttr : option TranslationInfoAttr)
    (wgSize : list Z) : CompilationInfoAttr :=
  let workgroupSizeAttr := Some (getI64IntegerArrayAttr wgSize) in
  {| loweringConfig := configAttr;
     translationInfo := translationInfoAttr;
     workgroupSize := workgroupSizeAttr |}.

Definition CompilationInfoAttr_verify
    (config : option LoweringConfigAttr)
    (info : option TranslationInfoAttr)
    (wgSize : ArrayAttrRef) : LogicalResult :=
  match config with
  | None => failure (AttrError "missing lowering config")
  | Some config =>
      match LoweringConfigAttr_verify (tileSizes config)
              (tileInterchange config) (nativeVectorSize config) with
      | failure d => failure d
      | success =>
          match info with
          | None => failure (AttrError "missing translation info")
          | Some info =>
              match TranslationInfoAttr_verify (passPipeline info)
                      (workloadPerWorkgroup info) with
              | failure d => failure d
              | success =>
                  match wgSize with
                  | Some workgroupSizeAttr =>
                      if negb (checkIntegerArrayAttr workgroupSizeAttr) then
                        failure (AttrError
                          "expected workgroup_size to be a list of integers")
                      else success
                  | None => success
                  end
              end
          end
      end
  end.

Definition getWorkgroupSizeVals (info : CompilationInfoAttr)
  : exec (list Z) :=
  match workgroupSize info with
  | None => Done []
  | Some workgroupSizeAttr => getIntegerVals (Some workgroupSizeAttr)
  end.

(** ** Helpers for [iree_codegen.translation_info] on the entry point *)

Definition getTranslationInfo (entryPointOp : ExecutableEntryPointOp)
  : option TranslationInfoAttr :=
  match entryPointAttrs entryPointOp !! kTranslationInfoAttrName with
  | Some (TranslationInfo info) => Some info
  | _ => None
  end.

Definition getWorkgroupSize (entryPointOp : ExecutableEntryPointOp)
  : exec (list Z) :=
  match workgroup_size entryPointOp with
  | Some workgroupSizeAttrList => getIntegerVals (Some workgroupSizeAttrList)
  | None => Done []
  end.

(** The workgroup size is set on the entry point itself, and only when it
    is not empty. *)
Definition setTranslationInfo (entryPointOp : ExecutableEntryPointOp)
    (info : TranslationInfoAttr) (wgSize : list Z) : ExecutableEntryPointOp :=
  {| entryPointAttrs :=
       <[kTranslationInfoAttrName := TranslationInfo info]>
         (entryPointAttrs entryPointOp);
     workgroup_size :=
       match wgSize with
       | [] => workgroup_size entryPointOp
       | _ => Some (getIndexIntegerArrayAttr wgSize)
       end |}.

(** ** Helpers for the attributes on root operations *)

(** [op->getAttrOfType<LoweringConfigAttr>(kConfigAttrName)]: null when the
    name is unset or bound to an attribute of another kind. *)
Definition getLoweringConfig (op : Operation) : option LoweringConfigAttr :=
  match attrs op !! kConfigAttrName with
  | Some (LoweringConfig config) => Some config
  | _ => None
  end.

Definition getTileSizes (op : Operation) (level : nat) : exec (list Z) :=
  match getLoweringConfig op with
  | None => Done []
  | Some configAttr => getTileSizeVals configAttr level
  end.

Definition setAttr (op : Operation) (name : string) (attr : NamedAttr)
  : Operation :=
  {| opName := opName op;
     partitionableLoopsInterface := partitionableLoopsInterface op;
     attrs := <[name := attr]> (attrs op) |}.

Definition removeAttr (op : Operation) (name : string) : Operation :=
  {| opName := opName op;
     partitionableLoopsInterface := partitionableLoopsInterface op;
     attrs := delete name (attrs op) |}.

Definition setLoweringConfig (op : Operation) (config : LoweringConfigAttr)
  : Operation :=
  setAttr op kConfigAttrName (LoweringConfig config).

Definition getCompilationInfo (op : Operation) : option CompilationInfoAttr :=
  match attrs op !! kCompilationInfoAttrName with
  | Some (CompilationInfo config) => Some config
  | _ => None
  end.

Definition setCompilationInfo (op : Operation) (config : CompilationInfoAttr)
  : Operation :=
  setAttr op kCompilationInfoAttrName (CompilationInfo config).

Definition eraseCompilationInfo (op : Operation) : Operation :=
  removeAttr op kCompilationInfoAttrName.

(** ** Distribution configuration of a dispatch *)

(** The vector [currDistributedTileSizes] built for one operation:
    [resize(partitionableLoops.back() + 1, 0)] when there are partitionable
    loops, then one guarded write per partitionable loop. *)
Definition currDistributedTileSizes
    (partitionableLoops : list N) (sizes : list Z) : exec (list Z) :=
  let resized :=
    match last partitionableLoops with
    | Some back => replicate (N.to_nat (unsigned_add back 1)) 0
    | None => []
    end in
  foldl (fun acc loopID =>
           curr ← acc;
           if (loopID <? N.of_nat (length sizes))%N then
             size ← load sizes (N.to_nat loopID);
             store curr (N.to_nat loopID) size
           else Done curr)
        (Done resized) partitionableLoops.

(** What one operation brings to the comparison: nothing when it lacks the
    interface or a lowering config, else its distributed tile sizes and its
    interchange, both of the first level. *)
Definition opDistribution (op : Operation) : option (exec (list Z * list Z)) :=
  match partitionableLoopsInterface op with
  | None => None
  | Some partitionbleLoopInterface =>
      match getLoweringConfig op with
      | None => None
      | Some currLoweringConfig =>
          let partitionableLoops :=
            getPartitionableLoops partitionbleLoopInterface
                                  kNumMaxParallelDims in
          Some (sizes ← getTileSizeVals currLoweringConfig 0;
                currInterchange ← getTileInterchangeVals currLoweringConfig 0;
                curr ← currDistributedTileSizes partitionableLoops sizes;
                Done (curr, currInterchange))
      end
  end.

(** The result and the two output vectors as the function leaves them. *)
Record Distribution := {
  result : LogicalResult;
  distributedTileSizes : list Z;
  interchange : list Z;
}.

Definition inconsistentDistribution (front : Operation) : Diagnostic :=
  OpError front
    "inconsistent distribution of ops for first level of distribution".

(** The loop over [computeOps]; [front] is [computeOps.front()] of the whole
    sequence, [dts] and [ich] are the output vectors so far. *)
Fixpoint scanComputeOps (front : Operation) (computeOps : list Operation)
    (dts ich : list Z) : exec Distribution :=
  match computeOps with
  | [] => Done {| result := success;
                  distributedTileSizes := dts; interchange := ich |}
  | op :: rest =>
      match opDistribution op with
      | None => scanComputeOps front rest dts ich
      | Some contribution =>
          match contribution with
          | Trap f => Trap f
          | Done (curr, currInterchange) =>
              if decide (dts = []) then
                scanComputeOps front rest curr currInterchange
              else if decide (curr ≠ dts ∨ currInterchange ≠ ich) then
                Done {| result := failure (inconsistentDistribution front);
                        distributedTileSizes := dts; interchange := ich |}
              else scanComputeOps front rest dts ich
          end
      end
  end.

(** Both output vectors are cleared on entry, so what they held before is
    of no consequence and they are not taken as arguments. *)
Definition getDistributionTileConfigFromLoweringConfig
    (computeOps : list Operation) : exec Distribution :=
  match computeOps with
  | [] => Done {| result := success;
                  distributedTileSizes := []; interchange := [] |}
  | front :: _ => scanComputeOps front computeOps [] []
  end.

End Attributes.

(** The largest of the loop ids. *)
Definition maxLoopId (loops : list N) : N := foldr N.max 0%N loops.

(** The entry the distributed tile sizes are to hold at index [i]: the
    first-level tile size when [i] is a partitionable loop that has one,
    zero otherwise. *)
Definition distributedEntry (loops : list N) (sizes : list Z) (i : nat) : Z :=
  if decide (N.of_nat i ∈ loops ∧ (i < length sizes)%nat)
  then default 0 (sizes !! i) else 0.

(** The writes of [currDistributedTileSizes] without their bounds check. *)
Definition writeTile (sizes : list Z) (curr : list Z) (loopID : N) : list Z :=
  if (loopID <? N.of_nat (length sizes))%N
  then <[N.to_nat loopID := default 0 (sizes !! N.to_nat loopID)]> curr
  else curr.

(** An operation the scan skips: it lacks the partitionable-loops
    interface or a lowering config. *)
Definition skipped (op : Operation) : Prop :=
  partitionableLoopsInterface op = None ∨ getLoweringConfig op = None.

(** The outcome of the scan with the diagnostic reduced to whether there is
    one. *)
Definition outcome (r : exec Distribution) : exec (bool * list Z * list Z) :=
  (fun d => (failed (result d), distributedTileSizes d, interchange d)) <$> r.

(** [op] brings the pair [p] to the comparison. *)
Definition contributes `{Declarations} (op : Operation) (p : list Z * list Z)
  : Prop :=
  opDistribution op = Some (Done p).

(** [op] is passed over, or brings a pair whose distributed tile sizes are
    not empty. *)
Definition distributes `{Declarations} (op : Operation) : Prop :=
  skipped op ∨ exists p, contributes op p ∧ p.1 ≠ [].

(** Two operations of the sequence bring different pairs. *)
Definition disagree `{Declarations} (computeOps : list Operation) : Prop :=
  exists op1 op2 p q,
    op1 ∈ computeOps ∧ op2 ∈ computeOps
    ∧ contributes op1 p ∧ contributes op2 q ∧ p ≠ q.

(** Two operations alike in all the scan reads: the partitionable loops,
    whether there is a lowering config, and the first level of its tile
    sizes and of its interchange. *)
Definition sameFirstLevel `{Declarations} (op1 op2 : Operation) : Prop :=
  (fun iface => getPartitionableLoops iface kNumMaxParallelDims)
    <$> partitionableLoopsInterface op1
  = (fun iface => getPartitionableLoops iface kNumMaxParallelDims)
    <$> partitionableLoopsInterface op2
  ∧ match getLoweringConfig op1, getLoweringConfig op2 with
    | Some config1, Some config2 =>
        getTileSizeVals config1 0 = getTileSizeVals config2 0
        ∧ getTileInterchangeVals config1 0 = getTileInterchangeVals config2 0
    | None, None => True
    | _, _ => False
    end.

(** The three fields of a lowering config are well formed: the tile sizes
    are present, every level entry of the tile sizes and of a present
    interchange is a flat sequence of integers, and a present native vector
    size holds integers only. *)
Definition wellFormedLoweringConfig
    (sizes interchange vectorSize : ArrayAttrRef) : Prop :=
  (exists entries, sizes = Some entries
                   ∧ Forall isFlatIntegerSequence entries)
  ∧ (forall entries, interchange = Some entries ->
       Forall isFlatIntegerSequence entries)
  ∧ (forall entries, vectorSize = Some entries -> Forall isInteger entries).

(** The pipeline is present and does not exceed the enumerator [None]. *)
Definition pipelineInBound `{Declarations}
    (pipeline : option DispatchLoweringPassPipeline) : Prop :=
  exists v, pipeline = Some v ∧ (v <= DispatchLoweringPassPipeline_None)%N.

(** The decoding of one level entry: [getIntegerVals(attr.cast<ArrayAttr>())]. *)
Definition decodeLevel (attr : Attribute) : exec (list Z) :=
  cast_ArrayAttr attr ≫= (fun a => getIntegerVals (Some a)).

(** The faults that come from an integer attribute itself, not from the
    shape of the arrays around it. *)
Definition integerFault (f : Fault) : Prop :=
  f = NotSignless ∨ f = TooManyBits.

(** The length [currDistributedTileSizes] resizes its vector to: the last
    partitionable loop id plus one in [unsigned] arithmetic, or nothing. *)
Definition resizedLength (loops : list N) : nat :=
  match last loops with
  | Some back => N.to_nat (unsigned_add back 1)
  | None => 0%nat
  end.

(** A loop id whose write falls outside a vector of length [n]: it has a
    first-level tile size, and it is not below [n]. *)
Definition writesOutside (sizes : list Z) (n : nat) (loopID : N) : Prop :=
  (N.to_nat loopID < length sizes)%nat ∧ (n <= N.to_nat loopID)%nat.

(** ** Sample operations

    An instance of the generated declarations and a few operations used to
    evaluate the functions above. *)

Definition sampleDeclarations : Declarations :=
  {| pipelineKinds := [0; 1; 2; 3; 255]%N;
     DispatchLoweringPassPipeline_None := 255;
     stringifyEnum := fun _ => EmptyString;
     kNumMaxParallelDims := 3 |}.

(** An operation without attributes; [loops] is what its partitionable-loops
    interface answers, when it has one. *)
Definition bareOp (name : string) (loops : option (list N)) : Operation :=
  {| opName := name;
     partitionableLoopsInterface :=
       (fun l => {| getPartitionableLoops := fun _ => l |}) <$> loops;
     attrs := ∅ |}.

Definition configuredOp (name : string) (loops : list N)
    (sizes interchange : list (list Z)) : Operation :=
  setLoweringConfig (bareOp name (Some loops))
                    (LoweringConfigAttr_get sizes interchange []).

Definition N1 : Operation := configuredOp "N1" [0; 1]%N [[4; 4]] [].
Definition N2_same : Operation := configuredOp "N2" [0; 1]%N [[4; 4]] [].
Definition N2_other : Operation := configuredOp "N2" [0; 1]%N [[4; 8]] [].

(** Operations that have the interface and a config but no partitionable
    loop. *)
Definition N0 : Operation := configuredOp "N0" [] [[4; 4]] [].
Definition N0_a : Operation := configuredOp "N0a" [] [[4; 4]] [[1; 0]].
Definition N0_b : Operation := configuredOp "N0b" [] [[4; 4]] [[0; 1]].

(** [N1] with a second tiling level and a native vector size. *)
Definition N1_deeper : Operation :=
  setLoweringConfig (bareOp "N1" (Some [0; 1]%N))
    (LoweringConfigAttr_get [[4; 4]; [1; 2]] [[]; [1; 0]] [8]).

(** * Properties *)

(** Closes a decidable goal on concrete data by evaluation. *)
Ltac by_decide := apply (bool_decide_unpack _); vm_compute; exact I.

(** ** The [exec] monad *)

Lemma exec_bind_Done {A B} (k : A -> exec B) (a : A) : Done a ≫= k = k a.
Proof. reflexivity. Qed.

Lemma exec_bind_Trap {A B} (k : A -> exec B) (f : Fault) :
  @Trap A f ≫= k = Trap f.
Proof. reflexivity. Qed.

Lemma foldl_Trap {A B} (step : exec A -> B -> exec A) (f : Fault) (l : list B) :
  (forall b, step (Trap f) b = Trap f) ->
  foldl step (Trap f) l = Trap f.
Proof.
  intros Hstep. induction l as [|b l IH]; simpl; [done|].
  by rewrite Hstep.
Qed.

(** ** The integer-list codec *)

Lemma signedValue_get64 (v : Z) :
  is_int64 v -> APInt.signedValue (APInt.get 64 v) = v.
Proof.
  unfold is_int64, int64_min, int64_max, APInt.signedValue, APInt.get, to_uint64.
  intros Hv. cbn [APInt.BitWidth APInt.VAL].
  change (Z.of_N 64) with 64.
  rewrite !Z.mod_mod by lia.
  destruct (Z.ltb_spec (v mod 2 ^ 64) (2 ^ (64 - 1))) as [Hlt|Hge];
    change (2 ^ (64 - 1)) with 9223372036854775808 in *;
    change (2 ^ 64) with 18446744073709551616 in *;
    change (2 ^ 63) with 9223372036854775808 in *;
    Z.to_euclidean_division_equations; lia.
Qed.

Lemma getInt_get64 (ty : Type_) (v : Z) :
  isIndex ty || isSignlessInteger ty = true ->
  is_int64 v ->
  getInt (ty, APInt.get 64 v) = Done v.
Proof.
  intros Hty Hv. unfold getInt, APInt.getSExtValue. simpl.
  rewrite Hty, signedValue_get64 by done.
  by rewrite decide_True.
Qed.

Lemma getIntegerVals_loop (f : nat -> nat) (filled : list Z) (rest : list Attribute) :
  (forall i, f i = (length filled + i)%nat) ->
  foldl getIntegerVals_step
        (Done (filled ++ replicate (length rest) 0)) (imap (pair ∘ f) rest)
  = vs ← mapM decodeElement rest; Done (filled ++ vs).
Proof.
  revert f filled. induction rest as [|attr rest IH]; intros f filled Hf.
  - simpl. reflexivity.
  - cbn [imap foldl length replicate mapM].
    unfold getIntegerVals_step at 2. cbn [fst snd compose].
    rewrite exec_bind_Done. fold (decodeElement attr).
    destruct (decodeElement attr) as [v|flt].
    + rewrite !exec_bind_Done. unfold store.
      rewrite decide_True by (rewrite length_app; simpl; rewrite Hf; lia).
      rewrite Hf, Nat.add_0_r.
      rewrite (insert_app_r_alt filled _ (length filled)) by lia.
      rewrite Nat.sub_diag. cbn [list_insert insert].
      replace (filled ++ v :: replicate (length rest) 0)
        with ((filled ++ [v]) ++ replicate (length rest) 0)
        by (by rewrite <- app_assoc).
      rewrite (imap_ext _ (pair ∘ (f ∘ S)) rest) by done.
      rewrite (IH (f ∘ S) (filled ++ [v])).
      * destruct (mapM decodeElement rest) as [vs|flt]; simpl; [|done].
        by rewrite <- app_assoc.
      * intros i. unfold compose. rewrite Hf, length_app. simpl. lia.
    + rewrite !exec_bind_Trap. apply foldl_Trap. intros b. reflexivity.
Qed.

Lemma getIntegerVals_mapM (elems : list Attribute) :
  getIntegerVals (Some elems) = mapM decodeElement elems.
Proof.
  unfold getIntegerVals, enumerate.
  pose proof (getIntegerVals_loop id [] elems (fun i => eq_refl)) as Hloop.
  cbn [app] in Hloop.
  rewrite (imap_ext _ (pair ∘ id) elems) by done.
  rewrite Hloop. by destruct (mapM decodeElement elems).
Qed.

Lemma mapM_decode_get64 (ty : Type_) (s : list Z) :
  isIndex ty || isSignlessInteger ty = true ->
  Forall is_int64 s ->
  mapM decodeElement (map (fun v => IntegerAttr ty (APInt.get 64 v)) s)
  = Done s.
Proof.
  intros Hty. induction 1 as [|v s Hv _ IH]; [done|].
  cbn [map mapM].
  assert (decodeElement (IntegerAttr ty (APInt.get 64 v)) = Done v)
    as -> by (by apply getInt_get64).
  by rewrite exec_bind_Done, IH.
Qed.

Lemma mapM_decode_i64 (s : list Z) :
  Forall is_int64 s ->
  mapM decodeElement (getI64IntegerArrayAttr s) = Done s.
Proof. by apply mapM_decode_get64. Qed.

Lemma getIntegerVals_i64 (s : list Z) :
  Forall is_int64 s ->
  getIntegerVals (Some (getI64IntegerArrayAttr s)) = Done s.
Proof. intros Hs. by rewrite getIntegerVals_mapM, mapM_decode_i64. Qed.

Lemma getIntegerVals_index (s : list Z) :
  Forall is_int64 s ->
  getIntegerVals (Some (getIndexIntegerArrayAttr s)) = Done s.
Proof.
  intros Hs. rewrite getIntegerVals_mapM. by apply mapM_decode_get64.
Qed.

(** C6. Decoding the attribute that [getI64IntegerArrayAttr] builds from a
    sequence of 64-bit integers gives the sequence back (the empty one
    included), and decoding a null attribute gives the empty sequence,
    not a fault. *)
Theorem getIntegerVals_roundtrip (s : list Z) (Hs : Forall is_int64 s) :
  getIntegerVals (Some (getI64IntegerArrayAttr s)) = Done s
  ∧ getIntegerVals (Some (getI64IntegerArrayAttr [])) = Done []
  ∧ getIntegerVals None = Done [].
Proof. split; [by apply getIntegerVals_i64|done]. Qed.

Lemma getIntegerVals_roundtrip_witness :
  Forall is_int64 [4; -1; 0; 9223372036854775807]
  ∧ getIntegerVals (Some (getI64IntegerArrayAttr [4; -1; 0; 9223372036854775807]))
    = Done [4; -1; 0; 9223372036854775807].
Proof.
  assert (Hs : Forall is_int64 [4; -1; 0; 9223372036854775807]).
  { by_decide. }
  split; [exact Hs|].
  exact (proj1 (getIntegerVals_roundtrip _ Hs)).
Defined.

(** ** Verification of [iree_codegen.lowering_config] *)

Lemma isa_IntegerAttr_spec (attr : Attribute) :
  isa_IntegerAttr attr = true <-> isInteger attr.
Proof.
  unfold isInteger. destruct attr; simpl; split;
    try discriminate; try (intros (? & ? & ?); discriminate); eauto.
Qed.

Lemma checkIntegerArrayAttr_spec (arr : list Attribute) :
  checkIntegerArrayAttr arr = true <-> Forall isInteger arr.
Proof.
  unfold checkIntegerArrayAttr. induction arr as [|attr arr IH]; simpl.
  - split; [constructor|done].
  - rewrite Forall_cons, <- IH, <- isa_IntegerAttr_spec.
    destruct (isa_IntegerAttr attr); simpl; intuition congruence.
Qed.

Lemma checkIntegerArrayAttr_false (arr : list Attribute) :
  checkIntegerArrayAttr arr = false <->
  exists attr, attr ∈ arr ∧ ¬ isInteger attr.
Proof.
  unfold checkIntegerArrayAttr. rewrite negb_false_iff.
  induction arr as [|attr arr IH]; simpl.
  - split; [done|]. intros (attr & Hin & _). by apply elem_of_nil in Hin.
  - rewrite orb_true_iff, IH, negb_true_iff. split.
    + intros [Hbad|(attr' & Hin & Hbad)].
      * exists attr. split; [left|].
        rewrite <- isa_IntegerAttr_spec. congruence.
      * exists attr'. split; [by right|done].
    + intros (attr' & Hin & Hbad). apply elem_of_cons in Hin as [->|Hin].
      * left. apply not_true_iff_false. by rewrite isa_IntegerAttr_spec.
      * right. eauto.
Qed.

Lemma flat_entry_spec (attr : Attribute) :
  match dyn_cast_ArrayAttr attr with
  | None => true
  | Some arrayAttr => negb (checkIntegerArrayAttr arrayAttr)
  end = false <-> isFlatIntegerSequence attr.
Proof.
  unfold isFlatIntegerSequence.
  destruct attr as [ty v|elems|str|]; simpl;
    try (split; [discriminate|intros (? & ? & ?); discriminate]).
  rewrite negb_false_iff, checkIntegerArrayAttr_spec. split.
  - eauto.
  - by intros (elems' & [= <-] & Hall).
Qed.

Lemma hasNonIntElems_spec (entries : list Attribute) :
  hasNonIntElems entries = true <->
  exists attr, attr ∈ entries ∧ ¬ isFlatIntegerSequence attr.
Proof.
  unfold hasNonIntElems. induction entries as [|attr entries IH]; simpl.
  - split; [done|]. intros (attr & Hin & _). by apply elem_of_nil in Hin.
  - rewrite orb_true_iff, IH. split.
    + intros [Hbad|(attr' & Hin & Hbad)].
      * exists attr. split; [left|].
        rewrite <- flat_entry_spec. congruence.
      * exists attr'. split; [by right|done].
    + intros (attr' & Hin & Hbad). apply elem_of_cons in Hin as [->|Hin].
      * left. apply not_false_iff_true. by rewrite flat_entry_spec.
      * right. eauto.
Qed.

(** C4. [LoweringConfigAttr::verify] fails exactly when [tile_sizes] is
    null, or one of its level entries is not a flat sequence of integers, or
    [tile_interchange] is present with such an entry, or
    [native_vector_size] is present and holds a non-integer; with an empty
    [tile_sizes] array only the two other fields can make it fail, so an
    empty array with both of them absent is accepted. *)
Theorem LoweringConfigAttr_verify_fails_iff
    (sizes interchange vectorSize : ArrayAttrRef) :
  (failed (LoweringConfigAttr_verify sizes interchange vectorSize) = true <->
     sizes = None
     ∨ someEntryNot isFlatIntegerSequence sizes
     ∨ someEntryNot isFlatIntegerSequence interchange
     ∨ someEntryNot isInteger vectorSize)
  ∧ (failed (LoweringConfigAttr_verify (Some []) interchange vectorSize) = true <->
     someEntryNot isFlatIntegerSequence interchange
     ∨ someEntryNot isInteger vectorSize)
  ∧ LoweringConfigAttr_verify (Some []) None None = success.
Proof.
  assert (Hgen : forall sizes',
    failed (LoweringConfigAttr_verify sizes' interchange vectorSize) = true <->
     sizes' = None
     ∨ someEntryNot isFlatIntegerSequence sizes'
     ∨ someEntryNot isFlatIntegerSequence interchange
     ∨ someEntryNot isInteger vectorSize).
  { intros sizes'. unfold LoweringConfigAttr_verify, someEntryNot.
    destruct sizes' as [sizesAttr|]; [|simpl; tauto].
    destruct (hasNonIntElems sizesAttr) eqn:Hs; simpl.
    { apply hasNonIntElems_spec in Hs as (attr & Hin & Hbad).
      split; [|done]. intros _. right. left. eauto. }
    assert (Hs' : ¬ exists entries attr,
               Some sizesAttr = Some entries ∧ attr ∈ entries
               ∧ ¬ isFlatIntegerSequence attr).
    { intros (entries & attr & [= <-] & Hin & Hbad).
      apply not_true_iff_false in Hs. apply Hs, hasNonIntElems_spec. eauto. }
    destruct interchange as [interchangeAttr|].
    - destruct (hasNonIntElems interchangeAttr) eqn:Hi; simpl.
      { apply hasNonIntElems_spec in Hi as (attr & Hin & Hbad).
        split; [|done]. intros _. right. right. left. eauto. }
      assert (Hi' : ¬ exists entries attr,
                 Some interchangeAttr = Some entries ∧ attr ∈ entries
                 ∧ ¬ isFlatIntegerSequence attr).
      { intros (entries & attr & [= <-] & Hin & Hbad).
        apply not_true_iff_false in Hi. apply Hi, hasNonIntElems_spec. eauto. }
      destruct vectorSize as [vectorSizeAttr|]; simpl.
      + destruct (checkIntegerArrayAttr vectorSizeAttr) eqn:Hv; simpl.
        * apply checkIntegerArrayAttr_spec in Hv. split; [done|].
          intros [?|[?|[?|(entries & attr & [= <-] & Hin & Hbad)]]];
            try done. rewrite Forall_forall in Hv. naive_solver.
        * apply checkIntegerArrayAttr_false in Hv as (attr & Hin & Hbad).
          split; [|done]. intros _. do 3 right. eauto.
      + split; [done|]. intros [?|[?|[?|(? & ? & ? & _)]]]; done.
    - assert (Hi' : ¬ exists entries attr,
                 @None (list Attribute) = Some entries ∧ attr ∈ entries
                 ∧ ¬ isFlatIntegerSequence attr).
      { intros (? & ? & ? & _). done. }
      destruct vectorSize as [vectorSizeAttr|]; simpl.
      + destruct (checkIntegerArrayAttr vectorSizeAttr) eqn:Hv; simpl.
        * apply checkIntegerArrayAttr_spec in Hv. split; [done|].
          intros [?|[?|[?|(entries & attr & [= <-] & Hin & Hbad)]]];
            try done. rewrite Forall_forall in Hv. naive_solver.
        * apply checkIntegerArrayAttr_false in Hv as (attr & Hin & Hbad).
          split; [|done]. intros _. do 3 right. eauto.
      + split; [done|]. intros [?|[?|[?|(? & ? & ? & _)]]]; done. }
  split; [apply Hgen|]. split; [|done].
  rewrite Hgen. split; [|tauto].
  intros [?|[(entries & attr & [= <-] & Hin & _)|?]]; [done| |done].
  by apply elem_of_nil in Hin.
Qed.

(** ** Verification of [iree_codegen.translation_info] *)

Section TranslationInfo.
Context `{Declarations}.

Lemma TranslationInfoAttr_verify_le (v : DispatchLoweringPassPipeline)
    (workload : ArrayAttrRef) :
  (v <= DispatchLoweringPassPipeline_None)%N ->
  TranslationInfoAttr_verify (Some v) workload = success.
Proof.
  intros Hle. unfold TranslationInfoAttr_verify.
  by rewrite (proj2 (N.ltb_ge _ _) Hle).
Qed.

(** C5, as the code has it. [TranslationInfoAttr::verify] reports a missing
    pipeline, rejects every value above the enumerator [None] and accepts
    every value up to it; so it accepts every declared kind, [None]
    included, as [None] is the highest of them. *)
Theorem TranslationInfoAttr_verify_bound (workload : ArrayAttrRef)
    (Hhighest : NoneIsHighest) :
  TranslationInfoAttr_verify None workload
    = failure (AttrError "missing pass pipeline specification")
  ∧ (forall v, (DispatchLoweringPassPipeline_None < v)%N ->
       TranslationInfoAttr_verify (Some v) workload
       = failure (AttrError ("invalid pass pipeline value : "
                             +:+ stringifyEnum v)))
  ∧ (forall v, (v <= DispatchLoweringPassPipeline_None)%N ->
       TranslationInfoAttr_verify (Some v) workload = success)
  ∧ (forall kind, kind ∈ pipelineKinds ->
       TranslationInfoAttr_verify (Some kind) workload = success)
  ∧ TranslationInfoAttr_verify (Some DispatchLoweringPassPipeline_None) workload
    = success.
Proof.
  destruct Hhighest as [_ Hmax]. rewrite Forall_forall in Hmax.
  split; [done|]. split; [|split; [|split]].
  - intros v Hlt. unfold TranslationInfoAttr_verify.
    by rewrite (proj2 (N.ltb_lt _ _) Hlt).
  - intros v Hle. by apply TranslationInfoAttr_verify_le.
  - intros kind Hin. apply TranslationInfoAttr_verify_le. by apply Hmax.
  - by apply TranslationInfoAttr_verify_le.
Qed.

End TranslationInfo.

Lemma TranslationInfoAttr_verify_bound_witness :
  @NoneIsHighest sampleDeclarations
  ∧ @TranslationInfoAttr_verify sampleDeclarations (Some 3%N) None = success
  ∧ failed (@TranslationInfoAttr_verify sampleDeclarations (Some 256%N) None)
    = true.
Proof.
  assert (Hhighest : @NoneIsHighest sampleDeclarations).
  { split; by_decide. }
  split; [exact Hhighest|].
  destruct (@TranslationInfoAttr_verify_bound sampleDeclarations None Hhighest)
    as (_ & Habove & _ & Hkind & _).
  split.
  - apply Hkind. by_decide.
  - rewrite (Habove 256%N); [reflexivity|]. reflexivity.
Defined.

(** C5, as stated, fails: with the enumerators 0, 1, 2, 3 and [None] = 255
    the value 100 is no declared kind, yet it does not exceed [None] and is
    accepted. *)
Lemma TranslationInfoAttr_verify_accepts_undeclared :
  @NoneIsHighest sampleDeclarations
  ∧ (100%N ∉ @pipelineKinds sampleDeclarations)
  ∧ @TranslationInfoAttr_verify sampleDeclarations (Some 100%N) None = success.
Proof.
  split; [split; by_decide|]. split; [by_decide|reflexivity].
Qed.

(** ** Level accessors of [iree_codegen.lowering_config] *)

Lemma levelVals_out_of_range (arr : ArrayAttrRef) (level : nat) :
  (numLevels arr <= level)%nat ->
  levelVals arr level = Done [].
Proof.
  intros Hlevel. unfold levelVals.
  destruct arr as [entries|]; [|done]. simpl in Hlevel.
  by rewrite decide_True.
Qed.

Lemma levelVals_in_range (arr : ArrayAttrRef) (level : nat)
    (elems : list Attribute) :
  levelEntry arr level = Some (ArrayAttr elems) ->
  levelVals arr level = mapM decodeElement elems.
Proof.
  unfold levelVals. destruct arr as [entries|]; [|done]. simpl.
  intros Hentry. apply lookup_lt_Some in Hentry as Hlt.
  rewrite decide_False by lia. unfold load. rewrite Hentry.
  rewrite !exec_bind_Done. apply getIntegerVals_mapM.
Qed.

(** C7. For a level at or beyond the number of configured levels, and so
    for every level when the field is absent, [getTileSizeVals(level)] and
    [getTileInterchangeVals(level)] return the empty sequence without a
    fault; for a level in range they return the decoding of that level's
    entry. *)
Theorem level_accessors (config : LoweringConfigAttr) (level : nat) :
  ((numLevels (tileSizes config) <= level)%nat ->
     getTileSizeVals config level = Done [])
  ∧ ((numLevels (tileInterchange config) <= level)%nat ->
     getTileInterchangeVals config level = Done [])
  ∧ (forall elems,
       levelEntry (tileSizes config) level = Some (ArrayAttr elems) ->
       getTileSizeVals config level = mapM decodeElement elems)
  ∧ (forall elems,
       levelEntry (tileInterchange config) level = Some (ArrayAttr elems) ->
       getTileInterchangeVals config level = mapM decodeElement elems).
Proof.
  change (getTileSizeVals config level)
    with (levelVals (tileSizes config) level).
  change (getTileInterchangeVals config level)
    with (levelVals (tileInterchange config) level).
  repeat split.
  - apply levelVals_out_of_range.
  - apply levelVals_out_of_range.
  - intros elems. apply levelVals_in_range.
  - intros elems. apply levelVals_in_range.
Qed.

Lemma level_accessors_witness :
  getTileSizeVals (LoweringConfigAttr_get [[4; 4]; [2; 2]] [[1; 0]] []) 2
    = Done []
  ∧ getTileInterchangeVals
      (LoweringConfigAttr_get [[4; 4]; [2; 2]] [[1; 0]] []) 1 = Done []
  ∧ getTileSizeVals (LoweringConfigAttr_get [[4; 4]; [2; 2]] [[1; 0]] []) 1
    = Done [2; 2]
  ∧ getTileInterchangeVals
      (LoweringConfigAttr_get [[4; 4]; [2; 2]] [[1; 0]] []) 0 = Done [1; 0].
Proof.
  set (config := LoweringConfigAttr_get [[4; 4]; [2; 2]] [[1; 0]] []).
  pose proof (level_accessors config 2) as (Hsizes2 & _).
  pose proof (level_accessors config 1) as (_ & Hinterchange1 & Hsizes1 & _).
  pose proof (level_accessors config 0) as (_ & _ & _ & Hinterchange0).
  split; [apply Hsizes2; simpl; lia|].
  split; [apply Hinterchange1; simpl; lia|].
  split.
  - rewrite (Hsizes1 (getI64IntegerArrayAttr [2; 2])) by reflexivity.
    apply mapM_decode_i64. by_decide.
  - rewrite (Hinterchange0 (getI64IntegerArrayAttr [1; 0])) by reflexivity.
    apply mapM_decode_i64. by_decide.
Defined.

(** What the level accessors return on a config made by the builder. *)
Lemma built_levelVals (levels : list (list Z)) (level : nat) :
  Forall (Forall is_int64) levels ->
  levelVals
    (Some (map (fun sizes => ArrayAttr (getI64IntegerArrayAttr sizes)) levels))
    level = Done (default [] (levels !! level)).
Proof.
  intros Hall. destruct (levels !! level) as [sizes|] eqn:Hlevel.
  - rewrite (levelVals_in_range _ level (getI64IntegerArrayAttr sizes)).
    + apply mapM_decode_i64. rewrite Forall_forall in Hall.
      apply Hall. by eapply list_elem_of_lookup_2.
    + simpl. by rewrite list_lookup_fmap, Hlevel.
  - apply levelVals_out_of_range. simpl. rewrite length_map.
    by apply lookup_ge_None.
Qed.

Lemma built_getTileSizeVals (sizes interchange : list (list Z))
    (vectorSize : list Z) (level : nat) :
  Forall (Forall is_int64) sizes ->
  getTileSizeVals (LoweringConfigAttr_get sizes interchange vectorSize) level
  = Done (default [] (sizes !! level)).
Proof. apply built_levelVals. Qed.

Lemma built_getTileInterchangeVals (sizes interchange : list (list Z))
    (vectorSize : list Z) (level : nat) :
  Forall (Forall is_int64) interchange ->
  getTileInterchangeVals (LoweringConfigAttr_get sizes interchange vectorSize)
                         level
  = Done (default [] (interchange !! level)).
Proof. apply built_levelVals. Qed.

(** ** The attachment helpers *)

Lemma getTranslationInfo_set (entryPointOp : ExecutableEntryPointOp)
    (info : TranslationInfoAttr) (wgSize : list Z) :
  getTranslationInfo (setTranslationInfo entryPointOp info wgSize) = Some info.
Proof.
  unfold getTranslationInfo, setTranslationInfo. simpl.
  by rewrite lookup_insert_eq.
Qed.

Lemma getWorkgroupSize_set (entryPointOp : ExecutableEntryPointOp)
    (info : TranslationInfoAttr) (wgSize : list Z) :
  Forall is_int64 wgSize ->
  getWorkgroupSize (setTranslationInfo entryPointOp info wgSize)
  = match wgSize with
    | [] => getWorkgroupSize entryPointOp
    | _ => Done wgSize
    end.
Proof.
  intros Hwg. unfold getWorkgroupSize, setTranslationInfo. simpl.
  destruct wgSize as [|v rest]; [done|]. by apply getIntegerVals_index.
Qed.

Lemma getLoweringConfig_set (op : Operation) (config : LoweringConfigAttr) :
  getLoweringConfig (setLoweringConfig op config) = Some config.
Proof.
  unfold getLoweringConfig, setLoweringConfig, setAttr. simpl.
  by rewrite lookup_insert_eq.
Qed.

Lemma getCompilationInfo_erase (op : Operation) :
  getCompilationInfo (eraseCompilationInfo op) = None.
Proof.
  unfold getCompilationInfo, eraseCompilationInfo, removeAttr. simpl.
  by rewrite lookup_delete_eq.
Qed.

Lemma getLoweringConfig_eraseCompilationInfo (op : Operation) :
  getLoweringConfig (eraseCompilationInfo op) = getLoweringConfig op.
Proof.
  unfold getLoweringConfig, eraseCompilationInfo, removeAttr. simpl.
  by rewrite lookup_delete_ne.
Qed.

(** ** The builders *)

Section Builders.
Context `{Declarations}.

(** C10. Each builder of the three attribute kinds stores every
    integer-sequence argument (workload per workgroup, workgroup size,
    native vector size, interchange) as a present encoded array, empty when
    the argument is empty and never null; so on a built attribute the
    accessors return the sequence that was passed in, the empty one for an
    empty argument. *)
Theorem builders_encode_present
    (sizes interchange : list (list Z)) (vectorSize workload wgSize : list Z)
    (pipeline : DispatchLoweringPassPipeline)
    (configAttr : option LoweringConfigAttr)
    (translationInfoAttr : option TranslationInfoAttr)
    (Hinterchange : Forall (Forall is_int64) interchange)
    (HvectorSize : Forall is_int64 vectorSize)
    (Hworkload : Forall is_int64 workload)
    (HwgSize : Forall is_int64 wgSize) :
  let info := TranslationInfoAttr_get pipeline workload in
  let config := LoweringConfigAttr_get sizes interchange vectorSize in
  let tiling := CompilationInfoAttr_get_tiling sizes interchange vectorSize wgSize in
  let full := CompilationInfoAttr_get_full sizes interchange vectorSize
                                           pipeline workload wgSize in
  let composed := CompilationInfoAttr_get_composed configAttr translationInfoAttr
                                                   wgSize in
  (workloadPerWorkgroup info = Some (getI64IntegerArrayAttr workload)
   ∧ getWorkloadPerWorkgroupVals info = Done workload)
  ∧ (tileInterchange config
       = Some (map (fun s => ArrayAttr (getI64IntegerArrayAttr s)) interchange)
     ∧ nativeVectorSize config = Some (getI64IntegerArrayAttr vectorSize)
     ∧ getNativeVectorSizeVals config = Done vectorSize
     ∧ forall level, getTileInterchangeVals config level
                     = Done (default [] (interchange !! level)))
  ∧ (loweringConfig tiling = Some config
     ∧ translationInfo tiling
         = Some (TranslationInfoAttr_get DispatchLoweringPassPipeline_None [])
     ∧ (forall t, translationInfo tiling = Some t ->
          workloadPerWorkgroup t = Some []
          ∧ getWorkloadPerWorkgroupVals t = Done [])
     ∧ workgroupSize tiling = Some (getI64IntegerArrayAttr wgSize)
     ∧ getWorkgroupSizeVals tiling = Done wgSize)
  ∧ (loweringConfig full = Some config
     ∧ translationInfo full = Some info
     ∧ workgroupSize full = Some (getI64IntegerArrayAttr wgSize)
     ∧ getWorkgroupSizeVals full = Done wgSize)
  ∧ (workgroupSize composed = Some (getI64IntegerArrayAttr wgSize)
     ∧ getWorkgroupSizeVals composed = Done wgSize).
Proof.
  intros info config tiling full composed.
  assert (Hwg : getIntegerVals (Some (getI64IntegerArrayAttr wgSize))
                = Done wgSize) by (by apply getIntegerVals_i64).
  split; [split; [done|by apply getIntegerVals_i64]|].
  split.
  { split; [done|]. split; [done|]. split; [by apply getIntegerVals_i64|].
    intros level. by apply built_getTileInterchangeVals. }
  split.
  { split; [done|]. split; [done|]. split; [|done].
    by intros t [= <-]. }
  done.
Qed.

End Builders.

Lemma builders_encode_present_witness :
  @getWorkgroupSizeVals
    (@CompilationInfoAttr_get_tiling sampleDeclarations
       [[8; 16]] [] [4] [32; 1; 1]) = Done [32; 1; 1]
  ∧ workgroupSize
      (@CompilationInfoAttr_get_tiling sampleDeclarations [[8; 16]] [] [4] [])
    = Some [].
Proof.
  assert (Hnil : Forall (Forall is_int64) []) by constructor.
  assert (Hv : Forall is_int64 [4]) by by_decide.
  assert (Hw : Forall is_int64 []) by constructor.
  assert (Hg : Forall is_int64 [32; 1; 1]) by by_decide.
  split.
  - exact (proj2 (proj2 (proj2 (proj2 (proj1 (proj2 (proj2
      (@builders_encode_present sampleDeclarations [[8; 16]] [] [4] []
         [32; 1; 1] 0%N None None Hnil Hv Hw Hg)))))))).
  - exact (proj1 (proj2 (proj2 (proj2 (proj1 (proj2 (proj2
      (@builders_encode_present sampleDeclarations [[8; 16]] [] [4] []
         [] 0%N None None Hnil Hv Hw Hw)))))))).
Defined.

(** ** The distributed tile sizes of one operation *)


Lemma writeTile_length (sizes curr : list Z) (loopID : N) :
  length (writeTile sizes curr loopID) = length curr.
Proof. unfold writeTile. case_match; [apply length_insert|done]. Qed.

Lemma foldl_writeTile_length (sizes : list Z) (loops : list N) (curr : list Z) :
  length (foldl (writeTile sizes) curr loops) = length curr.
Proof.
  revert curr. induction loops as [|id loops IH]; intros curr; simpl; [done|].
  by rewrite IH, writeTile_length.
Qed.

(** When every loop id lies inside the vector, no write faults. *)
Lemma guarded_writes_in_range (sizes : list Z) (loops : list N) (curr : list Z) :
  Forall (fun id => (N.to_nat id < length curr)%nat) loops ->
  foldl (fun acc loopID =>
           curr ← acc;
           if (loopID <? N.of_nat (length sizes))%N then
             size ← load sizes (N.to_nat loopID);
             store curr (N.to_nat loopID) size
           else Done curr)
        (Done curr) loops
  = Done (foldl (writeTile sizes) curr loops).
Proof.
  revert curr. induction loops as [|id loops IH]; intros curr Hin; [done|].
  apply Forall_cons in Hin as [Hid Hin]. cbn [foldl].
  rewrite exec_bind_Done. unfold writeTile at 2.
  destruct (N.ltb_spec id (N.of_nat (length sizes))) as [Hlt|Hge].
  - unfold load. destruct (lookup_lt_is_Some_2 sizes (N.to_nat id)) as [v Hv];
      [lia|].
    rewrite Hv, exec_bind_Done. unfold store. rewrite decide_True by done.
    simpl. apply IH. rewrite length_insert. done.
  - by apply IH.
Qed.

Lemma foldl_writeTile_lookup (sizes : list Z) (loops : list N) (curr : list Z)
    (i : nat) :
  (i < length curr)%nat ->
  foldl (writeTile sizes) curr loops !! i
  = if decide (N.of_nat i ∈ loops ∧ (i < length sizes)%nat)
    then Some (default 0 (sizes !! i)) else curr !! i.
Proof.
  revert curr. induction loops as [|id loops IH]; intros curr Hi.
  - cbn [foldl]. case_decide as Hcase; [|done]. destruct Hcase as [Hin _].
    by apply elem_of_nil in Hin.
  - cbn [foldl]. rewrite IH by (by rewrite writeTile_length).
    destruct (decide (N.of_nat i ∈ loops ∧ (i < length sizes)%nat))
      as [[Hin Hlt]|Hnot].
    + rewrite decide_True; [done|]. split; [by right|done].
    + unfold writeTile.
      destruct (N.ltb_spec id (N.of_nat (length sizes))) as [Hlt|Hge].
      * destruct (decide (N.to_nat id = i)) as [<-|Hne].
        -- rewrite list_lookup_insert_eq by done.
           rewrite decide_True; [done|]. split; [|lia].
           rewrite N2Nat.id. by left.
        -- rewrite list_lookup_insert_ne by done.
           rewrite decide_False; [done|]. intros [Hin Hlt'].
           apply elem_of_cons in Hin as [Heq|Hin]; [|tauto].
           apply Hne. rewrite <- Heq. apply Nat2N.id.
      * rewrite decide_False; [done|]. intros [Hin Hlt'].
        apply elem_of_cons in Hin as [Heq|Hin]; [lia|tauto].
Qed.

Lemma maxLoopId_ge (loops : list N) (id : N) :
  id ∈ loops -> (id <= maxLoopId loops)%N.
Proof.
  induction loops as [|id' loops IH]; intros Hin.
  - by apply elem_of_nil in Hin.
  - simpl. apply elem_of_cons in Hin as [->|Hin]; [lia|].
    specialize (IH Hin). lia.
Qed.

Lemma currDistributedTileSizes_nil (sizes : list Z) :
  currDistributedTileSizes [] sizes = Done [].
Proof. reflexivity. Qed.

(** The vector built when the last loop id is the largest one and adding
    one to it does not wrap. *)
Lemma currDistributedTileSizes_ordered (loops : list N) (sizes : list Z) :
  last loops = Some (maxLoopId loops) ->
  (maxLoopId loops + 1 < unsigned_modulus)%N ->
  exists arr,
    currDistributedTileSizes loops sizes = Done arr
    ∧ length arr = N.to_nat (maxLoopId loops + 1)
    ∧ forall i, (i < length arr)%nat ->
        arr !! i = Some (distributedEntry loops sizes i).
Proof.
  intros Hlast Hwrap. unfold currDistributedTileSizes. rewrite Hlast.
  unfold unsigned_add. rewrite N.mod_small by done.
  set (n := N.to_nat (maxLoopId loops + 1)).
  rewrite guarded_writes_in_range.
  - eexists. split; [done|].
    split; [by rewrite foldl_writeTile_length, length_replicate|].
    intros i Hi. rewrite foldl_writeTile_length in Hi.
    rewrite foldl_writeTile_lookup by done. unfold distributedEntry.
    case_decide; [done|]. rewrite length_replicate in Hi.
    by rewrite lookup_replicate_2.
  - rewrite length_replicate. apply Forall_forall. intros id Hin.
    apply maxLoopId_ge in Hin. lia.
Qed.

(** ** The scan over the compute operations *)

Section Scan.
Context `{Declarations}.

Lemma opDistribution_skipped (op : Operation) :
  opDistribution op = None <-> skipped op.
Proof.
  unfold opDistribution, skipped.
  destruct (partitionableLoopsInterface op); [|tauto].
  destruct (getLoweringConfig op); [|tauto].
  split; [done|]. intros [?|?]; done.
Qed.

Lemma scanComputeOps_skipped (front : Operation) (computeOps : list Operation)
    (dts ich : list Z) :
  Forall skipped computeOps ->
  scanComputeOps front computeOps dts ich
  = Done {| result := success;
            distributedTileSizes := dts; interchange := ich |}.
Proof.
  induction 1 as [|op rest Hop _ IH]; [done|].
  simpl. apply opDistribution_skipped in Hop. by rewrite Hop.
Qed.

(** The scan of a sequence in two parts: the second part goes on from the
    vectors the first part leaves, unless the first part has stopped. *)
Lemma scanComputeOps_app (front : Operation) (pre post : list Operation)
    (dts ich : list Z) :
  scanComputeOps front (pre ++ post) dts ich
  = match scanComputeOps front pre dts ich with
    | Done {| result := success;
              distributedTileSizes := dts'; interchange := ich' |} =>
        scanComputeOps front post dts' ich'
    | stopped => stopped
    end.
Proof.
  revert dts ich. induction pre as [|op pre IH]; intros dts ich; [done|].
  simpl. destruct (opDistribution op) as [[[curr currInterchange]|flt]|];
    [|done|apply IH].
  destruct (decide (dts = [])); [apply IH|].
  destruct (decide (curr ≠ dts ∨ currInterchange ≠ ich)); [done|apply IH].
Qed.

(** A scan that succeeds does so whatever operation is the anchor. *)
Lemma scanComputeOps_success_front (front front' : Operation)
    (computeOps : list Operation) (dts ich dts' ich' : list Z) :
  scanComputeOps front computeOps dts ich
    = Done {| result := success;
              distributedTileSizes := dts'; interchange := ich' |} ->
  scanComputeOps front' computeOps dts ich
    = Done {| result := success;
              distributedTileSizes := dts'; interchange := ich' |}.
Proof.
  revert dts ich. induction computeOps as [|op rest IH]; intros dts ich;
    [done|].
  simpl. destruct (opDistribution op) as [[[curr currInterchange]|flt]|];
    [|done|apply IH].
  destruct (decide (dts = [])); [apply IH|].
  destruct (decide (curr ≠ dts ∨ currInterchange ≠ ich)); [done|apply IH].
Qed.

(** The first output vector stays empty only while nothing non-empty has
    been adopted; on the empty sequence the scan leaves it as it is. *)
Lemma scanComputeOps_nil_inv (front : Operation) (dts ich : list Z)
    (r : Distribution) :
  scanComputeOps front [] dts ich = Done r ->
  distributedTileSizes r = dts ∧ interchange r = ich.
Proof. by intros [= <-]. Qed.

(** C8. The function returns success with both output vectors empty on
    the empty sequence, and on every sequence none of whose operations has
    both the partitionable-loops interface and a lowering config: such
    operations are passed over. *)
Theorem no_contribution_empty_plan (computeOps : list Operation)
    (Hskipped : Forall skipped computeOps) :
  getDistributionTileConfigFromLoweringConfig computeOps
  = Done {| result := success; distributedTileSizes := []; interchange := [] |}
  ∧ getDistributionTileConfigFromLoweringConfig []
    = Done {| result := success; distributedTileSizes := []; interchange := [] |}.
Proof.
  split; [|done]. unfold getDistributionTileConfigFromLoweringConfig.
  destruct computeOps as [|front rest]; [done|].
  by apply scanComputeOps_skipped.
Qed.

End Scan.

Lemma no_contribution_empty_plan_witness :
  Forall skipped [bareOp "N1" None; bareOp "N2" None;
                  bareOp "N3" (Some [0; 1]%N);
                  setLoweringConfig (bareOp "N4" None)
                    (LoweringConfigAttr_get [[4; 4]] [] [])]
  ∧ @getDistributionTileConfigFromLoweringConfig sampleDeclarations
      [bareOp "N1" None; bareOp "N2" None; bareOp "N3" (Some [0; 1]%N);
       setLoweringConfig (bareOp "N4" None)
         (LoweringConfigAttr_get [[4; 4]] [] [])]
    = Done {| result := success;
              distributedTileSizes := []; interchange := [] |}.
Proof.
  assert (Hskipped :
    Forall skipped [bareOp "N1" None; bareOp "N2" None;
                    bareOp "N3" (Some [0; 1]%N);
                    setLoweringConfig (bareOp "N4" None)
                      (LoweringConfigAttr_get [[4; 4]] [] [])]).
  { repeat apply List.Forall_cons; try apply List.Forall_nil.
    - left. reflexivity.
    - left. reflexivity.
    - right. vm_compute. reflexivity.
    - left. reflexivity. }
  split; [exact Hskipped|].
  exact (proj1 (@no_contribution_empty_plan sampleDeclarations _ Hskipped)).
Defined.

Section Resolver.
Context `{Declarations}.

(** C2. For an operation with the interface and a lowering config whose
    first level decodes, the vector built has length
    [max(partitionable loop id) + 1], holds the first-level tile size at
    every partitionable loop id below the length of the first-level tile
    sizes, and zero at every other index.  The loop ids are those the
    interface hands out: the last one is the largest, and it is not the
    largest [unsigned] value.  So two operations with tile sizes [[4, 4]]
    and partitionable loops 0 and 1 resolve to tile sizes [4, 4] and an
    empty interchange. *)
Theorem opDistribution_tiles (op : Operation)
    (iface : PartitionableLoopsInterface) (config : LoweringConfigAttr)
    (sizes ich : list Z)
    (Hiface : partitionableLoopsInterface op = Some iface)
    (Hconfig : getLoweringConfig op = Some config)
    (Hsizes : getTileSizeVals config 0 = Done sizes)
    (Hich : getTileInterchangeVals config 0 = Done ich)
    (Hlast : last (getPartitionableLoops iface kNumMaxParallelDims)
             = Some (maxLoopId (getPartitionableLoops iface kNumMaxParallelDims)))
    (Hwrap : (maxLoopId (getPartitionableLoops iface kNumMaxParallelDims) + 1
              < unsigned_modulus)%N) :
  (exists arr,
     opDistribution op = Some (Done (arr, ich))
     ∧ length arr
       = N.to_nat (maxLoopId (getPartitionableLoops iface kNumMaxParallelDims) + 1)
     ∧ forall i, (i < length arr)%nat ->
         arr !! i = Some (distributedEntry
                            (getPartitionableLoops iface kNumMaxParallelDims)
                            sizes i))
  ∧ getDistributionTileConfigFromLoweringConfig [N1; N2_same]
    = Done {| result := success;
              distributedTileSizes := [4; 4]; interchange := [] |}.
Proof.
  split; [|by vm_compute].
  destruct (currDistributedTileSizes_ordered _ sizes Hlast Hwrap)
    as (arr & Harr & Hlen & Hentries).
  exists arr. split; [|done].
  unfold opDistribution. rewrite Hiface, Hconfig, Hsizes, Hich.
  rewrite !exec_bind_Done, Harr. done.
Qed.

(** X23. When the scan of the operations before [op] has left a non-empty
    vector of distributed tile sizes and [op] brings a pair that differs
    from the two output vectors, the function fails with the
    inconsistent-distribution diagnostic on the first operation of the
    whole sequence, whatever follows [op]; so it does on [N1] followed by an
    operation with tile sizes [[4, 8]]. *)
Theorem mismatch_fails_at_front (pre post : list Operation) (op : Operation)
    (dts ich curr currInterchange : list Z)
    (Hpre : getDistributionTileConfigFromLoweringConfig pre
            = Done {| result := success;
                      distributedTileSizes := dts; interchange := ich |})
    (Hnonempty : dts ≠ [])
    (Hop : opDistribution op = Some (Done (curr, currInterchange)))
    (Hdiffer : (curr, currInterchange) ≠ (dts, ich)) :
  (exists front,
     head (pre ++ op :: post) = Some front
     ∧ getDistributionTileConfigFromLoweringConfig (pre ++ op :: post)
       = Done {| result := failure (inconsistentDistribution front);
                 distributedTileSizes := dts; interchange := ich |})
  ∧ getDistributionTileConfigFromLoweringConfig [N1; N2_other]
    = Done {| result := failure (inconsistentDistribution N1);
              distributedTileSizes := [4; 4]; interchange := [] |}.
Proof.
  split; [|by vm_compute].
  destruct pre as [|front pre'].
  { simpl in Hpre. by injection Hpre as <- _. }
  exists front. split; [done|].
  unfold getDistributionTileConfigFromLoweringConfig in *.
  change ((front :: pre') ++ op :: post)
    with (front :: (pre' ++ op :: post)).
  cbv beta iota. change (front :: (pre' ++ op :: post))
    with ((front :: pre') ++ op :: post).
  rewrite scanComputeOps_app, Hpre. simpl. rewrite Hop.
  rewrite decide_False by done. rewrite decide_True; [done|].
  destruct (decide (curr = dts)) as [->|]; [|by left].
  right. intros ->. done.
Qed.

End Resolver.

Lemma opDistribution_tiles_witness :
  exists arr,
    @opDistribution sampleDeclarations
      (configuredOp "M" [0; 2]%N [[4; 8]] [[1; 0]]) = Some (Done (arr, [1; 0]))
    ∧ length arr = 3%nat
    ∧ forall i, (i < length arr)%nat ->
        arr !! i = Some (distributedEntry [0; 2]%N [4; 8] i).
Proof.
  refine (proj1 (@opDistribution_tiles sampleDeclarations
    (configuredOp "M" [0; 2]%N [[4; 8]] [[1; 0]])
    {| getPartitionableLoops := fun _ => [0; 2]%N |}
    (LoweringConfigAttr_get [[4; 8]] [[1; 0]] [])
    [4; 8] [1; 0] _ _ _ _ _ _)).
  - reflexivity.
  - vm_compute. reflexivity.
  - vm_compute. reflexivity.
  - vm_compute. reflexivity.
  - reflexivity.
  - reflexivity.
Defined.

Lemma mismatch_fails_at_front_witness :
  exists front,
    head ([N1; N2_same] ++ N2_other :: [N0]) = Some front
    ∧ @getDistributionTileConfigFromLoweringConfig sampleDeclarations
        ([N1; N2_same] ++ N2_other :: [N0])
      = Done {| result := failure (inconsistentDistribution front);
                distributedTileSizes := [4; 4]; interchange := [] |}.
Proof.
  refine (proj1 (@mismatch_fails_at_front sampleDeclarations
    [N1; N2_same] [N0] N2_other [4; 4] [] [4; 8] [] _ _ _ _)).
  - vm_compute. reflexivity.
  - discriminate.
  - vm_compute. reflexivity.
  - discriminate.
Defined.

(** C1. The code departs from the claim on [N0_a] followed by [N0_b]:
    [N0_a] is adopted with the pair ([], [1, 0]); [N0_b] brings the
    differing pair ([], [0, 1]); yet the function does not fail and returns
    the pair of [N0_b], the interchange of [N0_a] being overwritten without
    a diagnostic.  The test [distributedTileSizes.empty()] takes the
    adopted pair for no pair at all.  The very same two interchanges, on
    operations with partitionable loops 0 and 1, reach the comparison and
    are reported on the first operation. *)
Lemma mismatch_adopted_while_empty :
  @getDistributionTileConfigFromLoweringConfig sampleDeclarations
    [configuredOp "N0a" [0; 1]%N [[4; 4]] [[1; 0]];
     configuredOp "N0b" [0; 1]%N [[4; 4]] [[0; 1]]]
  = Done {| result :=
              failure (inconsistentDistribution
                         (configuredOp "N0a" [0; 1]%N [[4; 4]] [[1; 0]]));
            distributedTileSizes := [4; 4]; interchange := [1; 0] |}
  ∧ @opDistribution sampleDeclarations N0_a = Some (Done ([], [1; 0]))
  ∧ @getDistributionTileConfigFromLoweringConfig sampleDeclarations [N0_a]
    = Done {| result := success;
              distributedTileSizes := []; interchange := [1; 0] |}
  ∧ @opDistribution sampleDeclarations N0_b = Some (Done ([], [0; 1]))
  ∧ ([], [0; 1]) ≠ (@nil Z, [1; 0])
  ∧ @getDistributionTileConfigFromLoweringConfig sampleDeclarations
      [N0_a; N0_b]
    = Done {| result := success;
              distributedTileSizes := []; interchange := [0; 1] |}.
Proof.
  split; [by vm_compute|].
  split; [by vm_compute|]. split; [by vm_compute|]. split; [by vm_compute|].
  split; [discriminate|by vm_compute].
Qed.

(** ** Order of the operations *)

Section Order.
Context `{Declarations}.

Lemma contributes_not_skipped (op : Operation) (p : list Z * list Z) :
  contributes op p -> ¬ skipped op.
Proof.
  unfold contributes. intros Hp Hskip%opDistribution_skipped. congruence.
Qed.

(** From a non-empty vector on, the scan only compares: it fails exactly
    when some operation brings another pair, and never adopts. *)
Lemma scanComputeOps_nonempty (front : Operation) (computeOps : list Operation)
    (dts ich : list Z) :
  dts ≠ [] ->
  Forall distributes computeOps ->
  (¬ (exists op p, op ∈ computeOps ∧ contributes op p ∧ p ≠ (dts, ich))
   ∧ scanComputeOps front computeOps dts ich
     = Done {| result := success;
               distributedTileSizes := dts; interchange := ich |})
  ∨ ((exists op p, op ∈ computeOps ∧ contributes op p ∧ p ≠ (dts, ich))
   ∧ scanComputeOps front computeOps dts ich
     = Done {| result := failure (inconsistentDistribution front);
               distributedTileSizes := dts; interchange := ich |}).
Proof.
  intros Hdts. induction 1 as [|op rest Hop _ IH].
  - left. split; [|done]. intros (op & p & Hin & _).
    by apply elem_of_nil in Hin.
  - simpl. destruct Hop as [Hskip|(p & Hp & _)].
    + pose proof Hskip as Hnone%opDistribution_skipped. rewrite Hnone.
      destruct IH as [[Hall Hscan]|[(op' & q & Hin & Hq & Hne) Hscan]].
      * left. split; [|done]. intros (op' & q & Hin & Hq & Hne).
        apply elem_of_cons in Hin as [->|Hin].
        -- by apply contributes_not_skipped in Hq.
        -- apply Hall. eauto.
      * right. split; [|done]. exists op', q. split; [by right|done].
    + unfold contributes in Hp. rewrite Hp. destruct p as [curr ci].
      rewrite decide_False by done.
      destruct (decide (curr ≠ dts ∨ ci ≠ ich)) as [Hne|Heq].
      * right. split; [|done]. exists op, (curr, ci).
        split; [by left|]. split; [done|]. intros [= -> ->]. tauto.
      * assert (curr = dts ∧ ci = ich) as [-> ->].
        { destruct (decide (curr = dts)), (decide (ci = ich)); tauto. }
        destruct IH as [[Hall Hscan]|[(op' & q & Hin & Hq & Hne) Hscan]].
        -- left. split; [|done]. intros (op' & q & Hin & Hq & Hne).
           apply elem_of_cons in Hin as [->|Hin].
           ++ unfold contributes in Hq. congruence.
           ++ apply Hall. eauto.
        -- right. split; [|done]. exists op', q. split; [by right|done].
Qed.

(** From an empty vector on, the scan fails exactly when two operations
    bring different pairs, provided no pair has empty tile sizes. *)
Lemma scanComputeOps_empty (front : Operation) (computeOps : list Operation)
    (ich : list Z) :
  Forall distributes computeOps ->
  (¬ disagree computeOps
   ∧ exists dts' ich',
       scanComputeOps front computeOps [] ich
       = Done {| result := success;
                 distributedTileSizes := dts'; interchange := ich' |})
  ∨ (disagree computeOps
   ∧ exists dts' ich',
       scanComputeOps front computeOps [] ich
       = Done {| result := failure (inconsistentDistribution front);
                 distributedTileSizes := dts'; interchange := ich' |}).
Proof.
  induction 1 as [|op rest Hop Hrest IH].
  - left. split; [|by eexists _, _]. intros (op & ? & ? & ? & Hin & _).
    by apply elem_of_nil in Hin.
  - cbn [scanComputeOps]. destruct Hop as [Hskip|(p & Hp & Hne)].
    + pose proof Hskip as Hnone%opDistribution_skipped. rewrite Hnone.
      assert (Hiff : disagree (op :: rest) -> disagree rest).
      { intros (op1 & op2 & p & q & Hin1 & Hin2 & Hp & Hq & Hne).
        apply elem_of_cons in Hin1 as [->|Hin1];
          [by apply contributes_not_skipped in Hp|].
        apply elem_of_cons in Hin2 as [->|Hin2];
          [by apply contributes_not_skipped in Hq|].
        by exists op1, op2, p, q. }
      destruct IH as [[Hagree Hscan]|[Hdis Hscan]].
      * left. split; [tauto|done].
      * right. split; [|done].
        destruct Hdis as (op1 & op2 & p & q & Hin1 & Hin2 & Hrest').
        exists op1, op2, p, q. split; [by right|]. split; [by right|done].
    + pose proof Hp as Hp'. unfold contributes in Hp'. rewrite Hp'.
      destruct p as [curr ci]. simpl in Hne. rewrite decide_True by done.
      destruct (scanComputeOps_nonempty front rest curr ci Hne Hrest)
        as [[Hall Hscan]|[(op' & q & Hin & Hq & Hdiff) Hscan]].
      * left. split; [|by eexists _, _].
        intros (op1 & op2 & p & q & Hin1 & Hin2 & Hp1 & Hq2 & Hdiff).
        assert (Hsame : forall op' p', op' ∈ op :: rest ->
                          contributes op' p' -> p' = (curr, ci)).
        { intros op' p' Hin' Hp''. apply elem_of_cons in Hin' as [->|Hin'].
          - unfold contributes in *. congruence.
          - destruct (decide (p' = (curr, ci))); [done|].
            exfalso. apply Hall. eauto. }
        apply Hdiff. rewrite (Hsame op1 p), (Hsame op2 q); done.
      * right. split; [|by eexists _, _].
        exists op, op', (curr, ci), q.
        split; [by left|]. split; [by right|]. split; [done|].
        split; [done|]. congruence.
Qed.

Lemma disagree_Permutation (ops ops' : list Operation) :
  Permutation ops ops' -> disagree ops -> disagree ops'.
Proof.
  intros Hperm (op1 & op2 & p & q & Hin1 & Hin2 & Hrest).
  exists op1, op2, p, q. by rewrite <- !Hperm.
Qed.

(** X24. When every operation that takes part brings a non-empty vector
    of distributed tile sizes and the function fails with the
    inconsistent-distribution diagnostic, it fails so on every permutation
    of the sequence, with the diagnostic on the first operation of the
    permuted sequence. *)
Theorem disagreement_permutation (ops ops' : list Operation)
    (r : Distribution) (anchor : Operation)
    (Hdistributes : Forall distributes ops)
    (Hperm : Permutation ops ops')
    (Hrun : getDistributionTileConfigFromLoweringConfig ops = Done r)
    (Hfail : result r = failure (inconsistentDistribution anchor)) :
  exists front' r',
    head ops' = Some front'
    ∧ getDistributionTileConfigFromLoweringConfig ops' = Done r'
    ∧ result r' = failure (inconsistentDistribution front').
Proof.
  assert (Hdis : disagree ops).
  { unfold getDistributionTileConfigFromLoweringConfig in Hrun.
    destruct ops as [|front rest].
    - injection Hrun as <-. discriminate.
    - destruct (scanComputeOps_empty front (front :: rest) [] Hdistributes)
        as [[_ (d & i & Hscan)]|[Hdis _]]; [|done].
      rewrite Hscan in Hrun. injection Hrun as <-. discriminate. }
  apply (disagree_Permutation _ _ Hperm) in Hdis.
  rewrite Hperm in Hdistributes.
  destruct ops' as [|front' rest'].
  { destruct Hdis as (op & ? & ? & ? & Hin & _). by apply elem_of_nil in Hin. }
  destruct (scanComputeOps_empty front' (front' :: rest') [] Hdistributes)
    as [[Hagree _]|[_ (d & i & Hscan)]]; [done|].
  exists front'. eexists. split; [done|]. split; [exact Hscan|done].
Qed.

End Order.

Lemma disagreement_permutation_witness :
  exists front' r',
    head [N2_other; N1; bareOp "N3" None] = Some front'
    ∧ @getDistributionTileConfigFromLoweringConfig sampleDeclarations
        [N2_other; N1; bareOp "N3" None] = Done r'
    ∧ result r' = failure (inconsistentDistribution front').
Proof.
  refine (@disagreement_permutation sampleDeclarations
    [N1; bareOp "N3" None; N2_other] [N2_other; N1; bareOp "N3" None]
    {| result := failure (inconsistentDistribution N1);
       distributedTileSizes := [4; 4]; interchange := [] |} N1 _ _ _ _).
  - repeat apply List.Forall_cons; try apply List.Forall_nil.
    + right. exists ([4; 4], []). split; [|discriminate].
      vm_compute. reflexivity.
    + left. left. reflexivity.
    + right. exists ([4; 8], []). split; [|discriminate].
      vm_compute. reflexivity.
  - change [N2_other; N1; bareOp "N3" None]
      with ([N2_other] ++ [N1; bareOp "N3" None]).
    change [N1; bareOp "N3" None; N2_other]
      with ([N1; bareOp "N3" None] ++ [N2_other]).
    apply Permutation_app_comm.
  - vm_compute. reflexivity.
  - reflexivity.
Defined.

(** C3. The code departs from the claim on [N0] followed by [N1], a
    permutation of the rejected sequence [N1; N0]: [N0] has the interface
    and a config but no partitionable loop, so it brings the pair ([], []).
    After [N1] the comparison rejects that pair; before [N1] the test
    [distributedTileSizes.empty()] takes it for no pair at all, [N1] is
    adopted and the function succeeds.  The two operations disagree in
    both orders, and only one order is reported. *)
Lemma disagreement_order_dependent :
  @opDistribution sampleDeclarations N0 = Some (Done ([], []))
  ∧ @opDistribution sampleDeclarations N1 = Some (Done ([4; 4], []))
  ∧ Permutation [N1; N0] [N0; N1]
  ∧ @getDistributionTileConfigFromLoweringConfig sampleDeclarations [N1; N0]
    = Done {| result := failure (inconsistentDistribution N1);
              distributedTileSizes := [4; 4]; interchange := [] |}
  ∧ @getDistributionTileConfigFromLoweringConfig sampleDeclarations [N0; N1]
    = Done {| result := success;
              distributedTileSizes := [4; 4]; interchange := [] |}.
Proof.
  split; [by vm_compute|]. split; [by vm_compute|].
  split; [apply perm_swap|]. split; by vm_compute.
Qed.

(** ** What the scan reads of an operation *)

Section FirstLevel.
Context `{Declarations}.

Lemma sameFirstLevel_opDistribution (op1 op2 : Operation) :
  sameFirstLevel op1 op2 -> opDistribution op1 = opDistribution op2.
Proof.
  unfold sameFirstLevel, opDistribution. intros [Hloops Hconfig].
  destruct (partitionableLoopsInterface op1) as [iface1|],
           (partitionableLoopsInterface op2) as [iface2|];
    simpl in Hloops; try done.
  injection Hloops as Hloops.
  destruct (getLoweringConfig op1) as [config1|],
           (getLoweringConfig op2) as [config2|]; try done.
  destruct Hconfig as [-> ->]. by rewrite Hloops.
Qed.

Lemma sameFirstLevel_scan (front1 front2 : Operation)
    (ops1 ops2 : list Operation) (dts ich : list Z) :
  Forall2 sameFirstLevel ops1 ops2 ->
  outcome (scanComputeOps front1 ops1 dts ich)
  = outcome (scanComputeOps front2 ops2 dts ich).
Proof.
  intros Hsame. revert dts ich.
  induction Hsame as [|op1 op2 rest1 rest2 Hop _ IH]; intros dts ich; [done|].
  simpl. rewrite (sameFirstLevel_opDistribution op1 op2 Hop).
  destruct (opDistribution op2) as [[[curr currInterchange]|flt]|];
    [|done|apply IH].
  destruct (decide (dts = [])); [apply IH|].
  destruct (decide (curr ≠ dts ∨ currInterchange ≠ ich)); [done|apply IH].
Qed.

(** Whatever stops the scan is reported on [front]. *)
Lemma scanComputeOps_anchor (front : Operation) (computeOps : list Operation)
    (dts ich : list Z) (r : Distribution) :
  scanComputeOps front computeOps dts ich = Done r ->
  failed (result r) = true ->
  result r = failure (inconsistentDistribution front).
Proof.
  revert dts ich. induction computeOps as [|op rest IH]; intros dts ich.
  - intros [= <-]. done.
  - simpl. destruct (opDistribution op) as [[[curr currInterchange]|flt]|];
      [|done|apply IH].
    destruct (decide (dts = [])); [apply IH|].
    destruct (decide (curr ≠ dts ∨ currInterchange ≠ ich)); [|apply IH].
    by intros [= <-].
Qed.

Lemma getDistribution_anchor (computeOps : list Operation) (r : Distribution) :
  getDistributionTileConfigFromLoweringConfig computeOps = Done r ->
  failed (result r) = true ->
  exists front,
    head computeOps = Some front
    ∧ result r = failure (inconsistentDistribution front).
Proof.
  unfold getDistributionTileConfigFromLoweringConfig.
  destruct computeOps as [|front rest].
  - intros [= <-]. done.
  - intros Hscan Hfailed. exists front. split; [done|].
    by eapply scanComputeOps_anchor.
Qed.

(** C9. Two sequences of operations that agree, one operation after the
    other, on the partitionable loops, on the presence of a lowering config
    and on the first level of its tile sizes and interchange get the same
    outcome: the same fault, or the same output vectors together with
    success for both or failure for both, each failure reported on the
    first operation of its own sequence.  Further levels and the native
    vector size are not read. *)
Theorem first_level_only (ops1 ops2 : list Operation)
    (Hsame : Forall2 sameFirstLevel ops1 ops2) :
  outcome (getDistributionTileConfigFromLoweringConfig ops1)
  = outcome (getDistributionTileConfigFromLoweringConfig ops2)
  ∧ (forall r1,
       getDistributionTileConfigFromLoweringConfig ops1 = Done r1 ->
       failed (result r1) = true ->
       exists front1 front2 r2,
         head ops1 = Some front1 ∧ head ops2 = Some front2
         ∧ getDistributionTileConfigFromLoweringConfig ops2 = Done r2
         ∧ result r1 = failure (inconsistentDistribution front1)
         ∧ result r2 = failure (inconsistentDistribution front2)).
Proof.
  assert (Hout : outcome (getDistributionTileConfigFromLoweringConfig ops1)
                 = outcome (getDistributionTileConfigFromLoweringConfig ops2)).
  { unfold getDistributionTileConfigFromLoweringConfig.
    destruct Hsame as [|op1 op2 rest1 rest2 Hop Hrest]; [done|].
    apply sameFirstLevel_scan. by constructor. }
  split; [exact Hout|].
  intros r1 Hrun1 Hfailed1.
  destruct (getDistribution_anchor ops1 r1 Hrun1 Hfailed1)
    as (front1 & Hhead1 & Hres1).
  rewrite Hrun1 in Hout.
  destruct (getDistributionTileConfigFromLoweringConfig ops2) as [r2|flt]
    eqn:Hrun2; [|done].
  injection Hout as Hfailed _ _. rewrite Hfailed1 in Hfailed.
  destruct (getDistribution_anchor ops2 r2 Hrun2 (eq_sym Hfailed))
    as (front2 & Hhead2 & Hres2).
  by exists front1, front2, r2.
Qed.

End FirstLevel.

Lemma first_level_only_witness :
  Forall2 (@sameFirstLevel sampleDeclarations)
          [N1; N2_other] [N1_deeper; N2_other]
  ∧ outcome (@getDistributionTileConfigFromLoweringConfig sampleDeclarations
               [N1; N2_other])
    = outcome (@getDistributionTileConfigFromLoweringConfig sampleDeclarations
                 [N1_deeper; N2_other]).
Proof.
  assert (Hsame : Forall2 (@sameFirstLevel sampleDeclarations)
                          [N1; N2_other] [N1_deeper; N2_other]).
  { apply List.Forall2_cons; [|apply List.Forall2_cons; [|apply List.Forall2_nil]];
      (split; [vm_compute; reflexivity|vm_compute; split; reflexivity]). }
  split; [exact Hsame|].
  exact (proj1 (@first_level_only sampleDeclarations _ _ Hsame)).
Defined.

(** * Further properties of the code *)

(** ** The codec on index-typed and on arbitrary arrays *)

Lemma checkIntegerArrayAttr_encoded (ty : Type_) (s : list Z) :
  checkIntegerArrayAttr (map (fun v => IntegerAttr ty (APInt.get 64 v)) s)
  = true.
Proof.
  apply checkIntegerArrayAttr_spec, Forall_forall.
  intros attr (v & -> & _)%list_elem_of_fmap. by eexists _, _.
Qed.

(** X1. The index-typed encoder used for the workgroup size of an entry
    point is inverted by the decoder as well: decoding
    [getIndexIntegerArrayAttr s] gives back [s] for 64-bit values, and the
    array it builds has the length of [s] and passes the integer check. *)
Theorem getIndexIntegerArrayAttr_roundtrip (s : list Z)
    (Hs : Forall is_int64 s) :
  getIntegerVals (Some (getIndexIntegerArrayAttr s)) = Done s
  ∧ length (getIndexIntegerArrayAttr s) = length s
  ∧ checkIntegerArrayAttr (getIndexIntegerArrayAttr s) = true.
Proof.
  split; [by apply getIntegerVals_index|].
  split; [apply length_map|apply checkIntegerArrayAttr_encoded].
Qed.

Lemma getIndexIntegerArrayAttr_roundtrip_witness :
  Forall is_int64 [64; 1; -3]
  ∧ getIntegerVals (Some (getIndexIntegerArrayAttr [64; 1; -3]))
    = Done [64; 1; -3].
Proof.
  assert (Hs : Forall is_int64 [64; 1; -3]) by by_decide.
  split; [exact Hs|].
  exact (proj1 (getIndexIntegerArrayAttr_roundtrip _ Hs)).
Defined.

Lemma decodeElement_Done_inv (attr : Attribute) (v : Z) :
  decodeElement attr = Done v -> isInteger attr ∧ is_int64 v.
Proof.
  unfold decodeElement. destruct attr as [ty value|elems|str|]; try done.
  change (getInt (ty, value) = Done v -> isInteger (IntegerAttr ty value)
                                        ∧ is_int64 v).
  unfold getInt, APInt.getSExtValue. cbn [fst snd].
  destruct (isIndex ty || isSignlessInteger ty); [|done].
  case_decide as Hfit; [|done]. intros [= <-].
  split; [by eexists _, _|done].
Qed.

Lemma mapM_decodeElement_Done_inv (elems : list Attribute) (vs : list Z) :
  mapM decodeElement elems = Done vs ->
  length vs = length elems ∧ Forall isInteger elems ∧ Forall is_int64 vs.
Proof.
  revert vs. induction elems as [|attr elems IH]; intros vs.
  - intros [= <-]. by repeat split.
  - cbn [mapM]. destruct (decodeElement attr) as [v|flt] eqn:Hattr; [|done].
    rewrite exec_bind_Done.
    destruct (mapM decodeElement elems) as [vs'|flt]; [|done].
    rewrite exec_bind_Done. intros [= <-].
    destruct (IH vs' eq_refl) as (Hlen & Hints & Hfit).
    apply decodeElement_Done_inv in Hattr as [Hint Hv].
    simpl. by repeat split; [f_equal|constructor|constructor].
Qed.




(** ** Builders and verifiers together *)

Lemma hasNonIntElems_false (entries : list Attribute) :
  hasNonIntElems entries = false <-> Forall isFlatIntegerSequence entries.
Proof.
  unfold hasNonIntElems. induction entries as [|attr entries IH]; simpl.
  - split; [constructor|done].
  - rewrite orb_false_iff, IH, flat_entry_spec, Forall_cons. done.
Qed.

Lemma hasNonIntElems_encoded (levels : list (list Z)) :
  hasNonIntElems
    (map (fun sizes => ArrayAttr (getI64IntegerArrayAttr sizes)) levels)
  = false.
Proof.
  apply hasNonIntElems_false, Forall_forall.
  intros attr (sizes & -> & _)%list_elem_of_fmap.
  exists (getI64IntegerArrayAttr sizes). split; [done|].
  apply checkIntegerArrayAttr_spec, checkIntegerArrayAttr_encoded.
Qed.

Lemma LoweringConfigAttr_verify_built (sizes interchange : list (list Z))
    (vectorSize : list Z) :
  LoweringConfigAttr_verify
    (tileSizes (LoweringConfigAttr_get sizes interchange vectorSize))
    (tileInterchange (LoweringConfigAttr_get sizes interchange vectorSize))
    (nativeVectorSize (LoweringConfigAttr_get sizes interchange vectorSize))
  = success.
Proof.
  unfold LoweringConfigAttr_verify, LoweringConfigAttr_get.
  cbn [tileSizes tileInterchange nativeVectorSize].
  rewrite !hasNonIntElems_encoded.
  unfold getI64IntegerArrayAttr. by rewrite checkIntegerArrayAttr_encoded.
Qed.

(** X3. Whatever tile sizes, interchange and native vector size
    [LoweringConfigAttr::get] is given, the attribute it builds passes
    [LoweringConfigAttr::verify]. *)
Theorem built_config_verifies (sizes interchange : list (list Z))
    (vectorSize : list Z) :
  LoweringConfigAttr_verify
    (tileSizes (LoweringConfigAttr_get sizes interchange vectorSize))
    (tileInterchange (LoweringConfigAttr_get sizes interchange vectorSize))
    (nativeVectorSize (LoweringConfigAttr_get sizes interchange vectorSize))
  = success
  ∧ numLevels (tileSizes (LoweringConfigAttr_get sizes interchange vectorSize))
    = length sizes
  ∧ numLevels
      (tileInterchange (LoweringConfigAttr_get sizes interchange vectorSize))
    = length interchange.
Proof.
  split; [apply LoweringConfigAttr_verify_built|].
  split; apply length_map.
Qed.

Lemma LoweringConfigAttr_verify_success_iff
    (sizes interchange vectorSize : ArrayAttrRef) :
  LoweringConfigAttr_verify sizes interchange vectorSize = success <->
  wellFormedLoweringConfig sizes interchange vectorSize.
Proof.
  unfold LoweringConfigAttr_verify, wellFormedLoweringConfig.
  destruct sizes as [sizesAttr|]; [|split; [done|by intros [(? & ? & _) _]]].
  destruct (hasNonIntElems sizesAttr) eqn:Hs.
  { split; [done|]. intros [(entries & [= <-] & Hflat) _].
    apply hasNonIntElems_false in Hflat. congruence. }
  apply hasNonIntElems_false in Hs.
  assert (Hinterchange :
    match interchange with
    | Some interchangeAttr => hasNonIntElems interchangeAttr
    | None => false
    end = false <->
    forall entries, interchange = Some entries ->
                    Forall isFlatIntegerSequence entries).
  { destruct interchange as [interchangeAttr|].
    - rewrite hasNonIntElems_false. split; [by intros ? ? [= <-]|eauto].
    - split; done. }
  destruct (match interchange with
            | Some interchangeAttr => hasNonIntElems interchangeAttr
            | None => false
            end) eqn:Hi.
  { split; [done|]. intros (_ & Hflat & _).
    apply Hinterchange in Hflat. done. }
  pose proof (proj1 Hinterchange eq_refl) as Hi'.
  destruct vectorSize as [vectorSizeAttr|].
  - destruct (checkIntegerArrayAttr vectorSizeAttr) eqn:Hv; simpl.
    + apply checkIntegerArrayAttr_spec in Hv. split; [|done]. intros _.
      split; [eauto|]. split; [done|]. by intros ? [= <-].
    + split; [done|]. intros (_ & _ & Hints).
      specialize (Hints _ eq_refl). apply checkIntegerArrayAttr_spec in Hints.
      congruence.
  - split; [|done]. intros _. split; [eauto|]. split; done.
Qed.

Section Validation.
Context `{Declarations}.

Lemma TranslationInfoAttr_verify_success_iff
    (pipeline : option DispatchLoweringPassPipeline) (workload : ArrayAttrRef) :
  TranslationInfoAttr_verify pipeline workload = success <->
  pipelineInBound pipeline.
Proof.
  unfold TranslationInfoAttr_verify, pipelineInBound.
  destruct pipeline as [v|]; [|split; [done|by intros (? & ? & _)]].
  destruct (N.ltb_spec DispatchLoweringPassPipeline_None v) as [Hlt|Hle].
  - split; [done|]. intros (v' & [= <-] & Hle). lia.
  - split; [eauto|done].
Qed.

(** X4. A compilation info made by the builder that takes no pipeline
    always passes [CompilationInfoAttr::verify] and carries the pipeline
    [None]; one made by the builder that takes a pipeline passes exactly
    when that pipeline does not exceed [None], and is otherwise rejected
    with the invalid-pipeline diagnostic. *)
Theorem built_compilation_info_verifies
    (sizes interchange : list (list Z)) (vectorSize workload wgSize : list Z)
    (pipeline : DispatchLoweringPassPipeline) :
  CompilationInfoAttr_verify
    (loweringConfig
       (CompilationInfoAttr_get_tiling sizes interchange vectorSize wgSize))
    (translationInfo
       (CompilationInfoAttr_get_tiling sizes interchange vectorSize wgSize))
    (workgroupSize
       (CompilationInfoAttr_get_tiling sizes interchange vectorSize wgSize))
  = success
  ∧ (translationInfo
       (CompilationInfoAttr_get_tiling sizes interchange vectorSize wgSize)
     ≫= passPipeline) = Some DispatchLoweringPassPipeline_None
  ∧ CompilationInfoAttr_verify
      (loweringConfig
         (CompilationInfoAttr_get_full sizes interchange vectorSize
                                       pipeline workload wgSize))
      (translationInfo
         (CompilationInfoAttr_get_full sizes interchange vectorSize
                                       pipeline workload wgSize))
      (workgroupSize
         (CompilationInfoAttr_get_full sizes interchange vectorSize
                                       pipeline workload wgSize))
    = if (DispatchLoweringPassPipeline_None <? pipeline)%N
      then failure (AttrError ("invalid pass pipeline value : "
                               +:+ stringifyEnum pipeline))
      else success.
Proof.
  unfold CompilationInfoAttr_get_tiling, CompilationInfoAttr_get_full,
    CompilationInfoAttr_verify.
  cbn [loweringConfig translationInfo workgroupSize].
  rewrite !LoweringConfigAttr_verify_built.
  unfold TranslationInfoAttr_get, TranslationInfoAttr_verify.
  cbn [passPipeline workloadPerWorkgroup].
  rewrite N.ltb_irrefl.
  unfold getI64IntegerArrayAttr. rewrite checkIntegerArrayAttr_encoded.
  split; [done|]. split; [done|].
  by destruct (DispatchLoweringPassPipeline_None <? pipeline)%N.
Qed.

Lemma CompilationInfoAttr_verify_wellFormed
    (config : option LoweringConfigAttr) (info : option TranslationInfoAttr)
    (wgSize : ArrayAttrRef) :
  CompilationInfoAttr_verify config info wgSize = success <->
  exists config' info',
    config = Some config' ∧ info = Some info'
    ∧ wellFormedLoweringConfig (tileSizes config') (tileInterchange config')
                               (nativeVectorSize config')
    ∧ pipelineInBound (passPipeline info')
    ∧ forall entries, wgSize = Some entries -> Forall isInteger entries.
Proof.
  unfold CompilationInfoAttr_verify.
  destruct config as [config'|]; [|split; [done|by intros (? & ? & ? & _)]].
  pose proof (LoweringConfigAttr_verify_success_iff (tileSizes config')
                (tileInterchange config') (nativeVectorSize config')) as Hlc.
  destruct (LoweringConfigAttr_verify _ _ _) as [|d].
  2:{ split; [done|]. intros (c & i & [= <-] & _ & Hwf & _).
      apply Hlc in Hwf. done. }
  destruct info as [info'|];
    [|split; [done|by intros (? & ? & _ & ? & _)]].
  pose proof (TranslationInfoAttr_verify_success_iff (passPipeline info')
                (workloadPerWorkgroup info')) as Hti.
  destruct (TranslationInfoAttr_verify _ _) as [|d].
  2:{ split; [done|]. intros (c & i & _ & [= <-] & _ & Hin & _).
      apply Hti in Hin. done. }
  destruct wgSize as [workgroupSizeAttr|].
  - destruct (checkIntegerArrayAttr workgroupSizeAttr) eqn:Hw; simpl.
    + apply checkIntegerArrayAttr_spec in Hw. split; [|done]. intros _.
      exists config', info'. split; [done|]. split; [done|].
      split; [by apply Hlc|]. split; [by apply Hti|]. by intros ? [= <-].
    + split; [done|]. intros (c & i & _ & _ & _ & _ & Hints).
      specialize (Hints _ eq_refl). apply checkIntegerArrayAttr_spec in Hints.
      congruence.
  - split; [|done]. intros _. exists config', info'.
    split; [done|]. split; [done|].
    split; [by apply Hlc|]. split; [by apply Hti|done].
Qed.

(** X5. [CompilationInfoAttr::verify] succeeds exactly when the lowering
    config and the translation info are both present, the three fields of
    the lowering config are well formed, the pipeline is present and does
    not exceed [None], and a present workgroup size holds integers only. *)
Theorem CompilationInfoAttr_verify_success_iff
    (config : option LoweringConfigAttr) (info : option TranslationInfoAttr)
    (wgSize : ArrayAttrRef) :
  CompilationInfoAttr_verify config info wgSize = success <->
  exists config' info',
    config = Some config' ∧ info = Some info'
    ∧ wellFormedLoweringConfig (tileSizes config') (tileInterchange config')
                               (nativeVectorSize config')
    ∧ pipelineInBound (passPipeline info')
    ∧ forall entries, wgSize = Some entries -> Forall isInteger entries.
Proof. apply CompilationInfoAttr_verify_wellFormed. Qed.

(** X6. [CompilationInfoAttr::verify] checks in a fixed order and hands on
    the diagnostic of a sub-verifier unchanged: a missing lowering config
    is reported first, then the diagnostic of the lowering config's own
    verifier, then a missing translation info, then the diagnostic of the
    translation info's verifier, and only then the workgroup size. *)
Theorem CompilationInfoAttr_verify_order
    (config : LoweringConfigAttr) (info : option TranslationInfoAttr)
    (wgSize : ArrayAttrRef) :
  (forall info' wgSize',
     CompilationInfoAttr_verify None info' wgSize'
     = failure (AttrError "missing lowering config"))
  ∧ (forall d,
       LoweringConfigAttr_verify (tileSizes config) (tileInterchange config)
                                 (nativeVectorSize config) = failure d ->
       CompilationInfoAttr_verify (Some config) info wgSize = failure d)
  ∧ (LoweringConfigAttr_verify (tileSizes config) (tileInterchange config)
                               (nativeVectorSize config) = success ->
     CompilationInfoAttr_verify (Some config) None wgSize
     = failure (AttrError "missing translation info"))
  ∧ (forall info' d,
       LoweringConfigAttr_verify (tileSizes config) (tileInterchange config)
                                 (nativeVectorSize config) = success ->
       TranslationInfoAttr_verify (passPipeline info')
                                  (workloadPerWorkgroup info') = failure d ->
       CompilationInfoAttr_verify (Some config) (Some info') wgSize
       = failure d)
  ∧ (forall info' entries,
       LoweringConfigAttr_verify (tileSizes config) (tileInterchange config)
                                 (nativeVectorSize config) = success ->
       TranslationInfoAttr_verify (passPipeline info')
                                  (workloadPerWorkgroup info') = success ->
       ¬ Forall isInteger entries ->
       CompilationInfoAttr_verify (Some config) (Some info') (Some entries)
       = failure (AttrError
                    "expected workgroup_size to be a list of integers")).
Proof.
  unfold CompilationInfoAttr_verify. split; [done|].
  split; [by intros d ->|]. split; [by intros ->|].
  split; [by intros info' d -> ->|].
  intros info' entries -> -> Hbad.
  destruct (checkIntegerArrayAttr entries) eqn:Hw; [|done].
  by apply checkIntegerArrayAttr_spec in Hw.
Qed.

End Validation.

Lemma CompilationInfoAttr_verify_order_witness :
  @CompilationInfoAttr_verify sampleDeclarations
    (Some {| tileSizes := None; tileInterchange := None;
             nativeVectorSize := None |})
    None (Some [UnitAttr])
  = failure (AttrError
      "expected tile_sizes to be specified (even is specified as empty)")
  ∧ @CompilationInfoAttr_verify sampleDeclarations
      (Some (LoweringConfigAttr_get [[4; 4]] [] []))
      (Some {| passPipeline := Some 300%N; workloadPerWorkgroup := None |})
      (Some [UnitAttr])
    = failure (AttrError ("invalid pass pipeline value : "
                          +:+ @stringifyEnum sampleDeclarations 300%N))
  ∧ @CompilationInfoAttr_verify sampleDeclarations
      (Some (LoweringConfigAttr_get [[4; 4]] [] []))
      (Some (TranslationInfoAttr_get 0%N []))
      (Some [UnitAttr])
    = failure (AttrError "expected workgroup_size to be a list of integers").
Proof.
  split; [|split].
  - refine (proj1 (proj2 (@CompilationInfoAttr_verify_order sampleDeclarations
      {| tileSizes := None; tileInterchange := None;
         nativeVectorSize := None |} None (Some [UnitAttr]))) _ _).
    reflexivity.
  - refine (proj1 (proj2 (proj2 (proj2
      (@CompilationInfoAttr_verify_order sampleDeclarations
         (LoweringConfigAttr_get [[4; 4]] [] []) None (Some [UnitAttr])))))
      {| passPipeline := Some 300%N; workloadPerWorkgroup := None |} _ _ _).
    + vm_compute. reflexivity.
    + reflexivity.
  - refine (proj2 (proj2 (proj2 (proj2
      (@CompilationInfoAttr_verify_order sampleDeclarations
         (LoweringConfigAttr_get [[4; 4]] [] []) None None))))
      (TranslationInfoAttr_get 0%N []) [UnitAttr] _ _ _).
    + vm_compute. reflexivity.
    + reflexivity.
    + intros Hall. apply Forall_cons in Hall as [(ty & v & Hunit) _].
      discriminate.
Defined.

(** X7. [LoweringConfigAttr::verify] reports the first field that is at
    fault: missing tile sizes, else a malformed level of the tile sizes
    whatever the other fields hold, else a malformed level of the
    interchange, else a non-integer in the native vector size. *)
Theorem LoweringConfigAttr_verify_first_failure
    (entries : list Attribute) (interchange vectorSize : ArrayAttrRef) :
  LoweringConfigAttr_verify None interchange vectorSize
    = failure (AttrError
        "expected tile_sizes to be specified (even is specified as empty)")
  ∧ (¬ Forall isFlatIntegerSequence entries ->
     LoweringConfigAttr_verify (Some entries) interchange vectorSize
     = failure (AttrError
         "expected all elements of tile_sizes to be a list of integers"))
  ∧ (forall levels,
       Forall isFlatIntegerSequence entries ->
       ¬ Forall isFlatIntegerSequence levels ->
       LoweringConfigAttr_verify (Some entries) (Some levels) vectorSize
       = failure (AttrError
           "expected all elements of tile_interchange to be a list of integers"))
  ∧ (forall values,
       Forall isFlatIntegerSequence entries ->
       (forall levels, interchange = Some levels ->
                       Forall isFlatIntegerSequence levels) ->
       ¬ Forall isInteger values ->
       LoweringConfigAttr_verify (Some entries) interchange (Some values)
       = failure (AttrError
           "expected native_vector_size to be a list of integer values")).
Proof.
  unfold LoweringConfigAttr_verify. split; [done|]. split; [|split].
  - intros Hbad. destruct (hasNonIntElems entries) eqn:Hs; [done|].
    by apply hasNonIntElems_false in Hs.
  - intros levels Hs%hasNonIntElems_false Hbad. rewrite Hs.
    destruct (hasNonIntElems levels) eqn:Hi; [done|].
    by apply hasNonIntElems_false in Hi.
  - intros values Hs%hasNonIntElems_false Hi Hbad. rewrite Hs.
    assert (match interchange with
            | Some interchangeAttr => hasNonIntElems interchangeAttr
            | None => false
            end = false) as ->.
    { destruct interchange as [levels|]; [|done].
      by apply hasNonIntElems_false, Hi. }
    destruct (checkIntegerArrayAttr values) eqn:Hv; [|done].
    by apply checkIntegerArrayAttr_spec in Hv.
Qed.

Lemma LoweringConfigAttr_verify_first_failure_witness :
  LoweringConfigAttr_verify (Some [UnitAttr]) (Some [UnitAttr]) (Some [UnitAttr])
    = failure (AttrError
        "expected all elements of tile_sizes to be a list of integers")
  ∧ LoweringConfigAttr_verify (Some [ArrayAttr []]) (Some [UnitAttr])
                              (Some [UnitAttr])
    = failure (AttrError
        "expected all elements of tile_interchange to be a list of integers")
  ∧ LoweringConfigAttr_verify (Some [ArrayAttr []]) None (Some [UnitAttr])
    = failure (AttrError
        "expected native_vector_size to be a list of integer values").
Proof.
  assert (Hunit : ¬ isFlatIntegerSequence UnitAttr).
  { intros (elems & Heq & _). discriminate. }
  assert (Hunit' : ¬ isInteger UnitAttr).
  { intros (ty & v & Heq). discriminate. }
  assert (Hflat : Forall isFlatIntegerSequence [ArrayAttr []]).
  { apply List.Forall_cons; [|apply List.Forall_nil].
    exists []. split; [reflexivity|apply List.Forall_nil]. }
  split; [|split].
  - apply (proj1 (proj2 (LoweringConfigAttr_verify_first_failure
             [UnitAttr] (Some [UnitAttr]) (Some [UnitAttr])))).
    intros Hall. by apply Forall_cons in Hall as [? _].
  - apply (proj1 (proj2 (proj2 (LoweringConfigAttr_verify_first_failure
             [ArrayAttr []] None (Some [UnitAttr]))))); [exact Hflat|].
    intros Hall. by apply Forall_cons in Hall as [? _].
  - apply (proj2 (proj2 (proj2 (LoweringConfigAttr_verify_first_failure
             [ArrayAttr []] None None)))); [exact Hflat|done|].
    intros Hall. by apply Forall_cons in Hall as [? _].
Defined.

(** ** The accessors of [iree_codegen.lowering_config] *)

Lemma mapM_exec_lookup {A B} (f : A -> exec B) (l : list A) (ks : list B) :
  mapM f l = Done ks ->
  length ks = length l
  ∧ forall i x, l !! i = Some x -> exists k, ks !! i = Some k ∧ f x = Done k.
Proof.
  revert ks. induction l as [|a l IH]; intros ks.
  - intros [= <-]. split; [done|]. intros i x Hx. done.
  - cbn [mapM]. destruct (f a) as [k|flt] eqn:Ha; [|done].
    rewrite exec_bind_Done. destruct (mapM f l) as [ks'|flt]; [|done].
    rewrite exec_bind_Done. intros [= <-].
    destruct (IH ks' eq_refl) as [Hlen Hlookup]. split; [simpl; lia|].
    intros [|i] x Hx; simpl in *.
    + injection Hx as <-. eauto.
    + by apply Hlookup.
Qed.

Lemma getTileSizeValsAll_loop (entries : list Attribute) (acc : list (list Z)) :
  foldl (fun acc attr =>
           sizes ← acc;
           vals ← cast_ArrayAttr attr ≫= (fun a => getIntegerVals (Some a));
           Done (sizes ++ [vals]))
        (Done acc) entries
  = levels ← mapM decodeLevel entries; Done (acc ++ levels).
Proof.
  revert acc. induction entries as [|attr entries IH]; intros acc.
  - simpl. by rewrite app_nil_r.
  - cbn [foldl mapM]. rewrite exec_bind_Done. fold (decodeLevel attr).
    destruct (decodeLevel attr) as [vals|flt].
    + rewrite !exec_bind_Done, IH.
      destruct (mapM decodeLevel entries) as [levels|flt]; simpl; [|done].
      by rewrite <- app_assoc.
    + rewrite !exec_bind_Trap. apply foldl_Trap. intros b. reflexivity.
Qed.

Lemma getTileSizeValsAll_mapM (config : LoweringConfigAttr)
    (entries : list Attribute) :
  tileSizes config = Some entries ->
  getTileSizeValsAll config = mapM decodeLevel entries.
Proof.
  intros Hentries. unfold getTileSizeValsAll. rewrite Hentries.
  rewrite getTileSizeValsAll_loop.
  by destruct (mapM decodeLevel entries).
Qed.

Lemma levelVals_decodeLevel (entries : list Attribute) (level : nat)
    (attr : Attribute) :
  entries !! level = Some attr ->
  levelVals (Some entries) level = decodeLevel attr.
Proof.
  intros Hentry. unfold levelVals, load.
  apply lookup_lt_Some in Hentry as Hlt.
  rewrite decide_False by lia. by rewrite Hentry.
Qed.

(** X8. The accessor of all levels and the accessor of one level agree:
    when [getTileSizeVals()] returns the list of all levels, it has one
    entry per configured level, and [getTileSizeVals(level)] returns the
    entry at [level] for a level in range and the empty sequence beyond. *)
Theorem getTileSizeVals_all_levels (config : LoweringConfigAttr)
    (levels : list (list Z))
    (Hall : getTileSizeValsAll config = Done levels) :
  length levels = numLevels (tileSizes config)
  ∧ forall level,
      getTileSizeVals config level = Done (default [] (levels !! level)).
Proof.
  change (forall level,
    getTileSizeVals config level = Done (default [] (levels !! level)))
    with (forall level,
    levelVals (tileSizes config) level = Done (default [] (levels !! level))).
  destruct (tileSizes config) as [entries|] eqn:Hentries.
  - rewrite (getTileSizeValsAll_mapM config entries Hentries) in Hall.
    apply mapM_exec_lookup in Hall as [Hlen Hlookup].
    split; [done|]. intros level.
    destruct (entries !! level) as [attr|] eqn:Hentry.
    + destruct (Hlookup level attr Hentry) as (vals & -> & Hvals).
      by rewrite (levelVals_decodeLevel entries level attr).
    + apply lookup_ge_None in Hentry as Hge.
      rewrite (proj2 (lookup_ge_None levels level)) by lia.
      by apply levelVals_out_of_range.
  - unfold getTileSizeValsAll in Hall. rewrite Hentries in Hall.
    injection Hall as <-. split; [done|]. intros level.
    by rewrite lookup_nil.
Qed.

Lemma getTileSizeVals_all_levels_witness :
  length [[4; 4]; [2; 1]]
  = numLevels (tileSizes (LoweringConfigAttr_get [[4; 4]; [2; 1]] [] []))
  ∧ forall level,
      getTileSizeVals (LoweringConfigAttr_get [[4; 4]; [2; 1]] [] []) level
      = Done (default [] ([[4; 4]; [2; 1]] !! level)).
Proof.
  refine (getTileSizeVals_all_levels
            (LoweringConfigAttr_get [[4; 4]; [2; 1]] [] [])
            [[4; 4]; [2; 1]] _).
  vm_compute. reflexivity.
Defined.

Lemma mapM_decodeLevel_encoded (levels : list (list Z)) :
  Forall (Forall is_int64) levels ->
  mapM decodeLevel
       (map (fun sizes => ArrayAttr (getI64IntegerArrayAttr sizes)) levels)
  = Done levels.
Proof.
  induction 1 as [|sizes levels Hsizes _ IH]; [done|].
  cbn [map mapM].
  assert (decodeLevel (ArrayAttr (getI64IntegerArrayAttr sizes)) = Done sizes)
    as -> by (by apply getIntegerVals_i64).
  by rewrite exec_bind_Done, IH.
Qed.

(** X9. [getTileSizeVals()] on a config made by [LoweringConfigAttr::get]
    returns the tile sizes of all levels as they were passed in; on a
    config whose tile sizes are null it returns the empty list. *)
Theorem getTileSizeValsAll_roundtrip (sizes interchange : list (list Z))
    (vectorSize : list Z) (Hsizes : Forall (Forall is_int64) sizes) :
  getTileSizeValsAll (LoweringConfigAttr_get sizes interchange vectorSize)
  = Done sizes
  ∧ forall other vector,
      getTileSizeValsAll {| tileSizes := None; tileInterchange := other;
                            nativeVectorSize := vector |} = Done [].
Proof.
  split; [|done].
  rewrite (getTileSizeValsAll_mapM
             (LoweringConfigAttr_get sizes interchange vectorSize)
             (map (fun s => ArrayAttr (getI64IntegerArrayAttr s)) sizes))
    by done.
  by apply mapM_decodeLevel_encoded.
Qed.

Lemma getTileSizeValsAll_roundtrip_witness :
  Forall (Forall is_int64) [[8; 16; 0]; [1; 1; 4]]
  ∧ getTileSizeValsAll
      (LoweringConfigAttr_get [[8; 16; 0]; [1; 1; 4]] [[1; 0; 2]] [4])
    = Done [[8; 16; 0]; [1; 1; 4]].
Proof.
  assert (Hsizes : Forall (Forall is_int64) [[8; 16; 0]; [1; 1; 4]])
    by by_decide.
  split; [exact Hsizes|].
  exact (proj1 (getTileSizeValsAll_roundtrip _ [[1; 0; 2]] [4] Hsizes)).
Defined.

Lemma decodeLevel_Done_inv (attr : Attribute) (vs : list Z) :
  decodeLevel attr = Done vs ->
  exists elems, attr = ArrayAttr elems
                ∧ Forall isInteger elems ∧ length vs = length elems.
Proof.
  unfold decodeLevel. destruct attr as [ty value|elems|str|]; try done.
  cbn [cast_ArrayAttr]. rewrite exec_bind_Done, getIntegerVals_mapM.
  intros (Hlen & Hints & _)%mapM_decodeElement_Done_inv.
  by exists elems.
Qed.

Lemma levelVals_Done_inv (arr : ArrayAttrRef) (level : nat) (vs : list Z) :
  levelVals arr level = Done vs ->
  ((numLevels arr <= level)%nat ∧ vs = [])
  ∨ exists elems,
      levelEntry arr level = Some (ArrayAttr elems)
      ∧ Forall isInteger elems ∧ length vs = length elems.
Proof.
  destruct arr as [entries|]; [|intros [= <-]; left; simpl; split; [lia|done]].
  destruct (entries !! level) as [attr|] eqn:Hentry.
  - rewrite (levelVals_decodeLevel entries level attr Hentry).
    intros (elems & -> & Hints & Hlen)%decodeLevel_Done_inv.
    right. exists elems. by rewrite <- Hentry.
  - apply lookup_ge_None in Hentry. unfold levelVals.
    rewrite decide_True by done. intros [= <-]. by left.
Qed.

Lemma levelVals_not_array (arr : ArrayAttrRef) (level : nat)
    (attr : Attribute) :
  levelEntry arr level = Some attr ->
  dyn_cast_ArrayAttr attr = None ->
  levelVals arr level = Trap BadCast.
Proof.
  destruct arr as [entries|]; [|done]. cbn [levelEntry].
  intros Hentry Hcast.
  rewrite (levelVals_decodeLevel entries level attr Hentry).
  by destruct attr.
Qed.

Lemma levelVals_not_flat (arr : ArrayAttrRef) (level : nat)
    (attr : Attribute) :
  levelEntry arr level = Some attr ->
  ¬ isFlatIntegerSequence attr ->
  exists f, levelVals arr level = Trap f.
Proof.
  intros Hentry Hbad.
  destruct (levelVals arr level) as [vs|f] eqn:Hrun; [|by exists f].
  exfalso. apply levelVals_Done_inv in Hrun
    as [[Hlevel _]|(elems & Hentry' & Hints & _)].
  - destruct arr as [entries|]; [|done]. simpl in *.
    apply lookup_lt_Some in Hentry. lia.
  - rewrite Hentry in Hentry'. injection Hentry' as ->.
    apply Hbad. by exists elems.
Qed.

(** X10. A level accessor returns a value in two cases only: the level is
    at or beyond the number of configured levels (or the field is absent)
    and the value is the empty sequence, or the entry at that level is an
    array of integer attributes and the value has one element per
    attribute.  On an entry in range that is no array it stops on the
    failed cast, and on an entry in range that is an array holding a
    non-integer it stops on a fault, returning no value. *)
Theorem level_accessors_Done_inv (config : LoweringConfigAttr) (level : nat) :
  (forall vs, getTileSizeVals config level = Done vs ->
     ((numLevels (tileSizes config) <= level)%nat ∧ vs = [])
     ∨ exists elems,
         levelEntry (tileSizes config) level = Some (ArrayAttr elems)
         ∧ Forall isInteger elems ∧ length vs = length elems)
  ∧ (forall vs, getTileInterchangeVals config level = Done vs ->
       ((numLevels (tileInterchange config) <= level)%nat ∧ vs = [])
       ∨ exists elems,
           levelEntry (tileInterchange config) level = Some (ArrayAttr elems)
           ∧ Forall isInteger elems ∧ length vs = length elems)
  ∧ (forall attr,
       levelEntry (tileSizes config) level = Some attr ->
       (dyn_cast_ArrayAttr attr = None ->
        getTileSizeVals config level = Trap BadCast)
       ∧ (¬ isFlatIntegerSequence attr ->
          exists f, getTileSizeVals config level = Trap f))
  ∧ (forall attr,
       levelEntry (tileInterchange config) level = Some attr ->
       (dyn_cast_ArrayAttr attr = None ->
        getTileInterchangeVals config level = Trap BadCast)
       ∧ (¬ isFlatIntegerSequence attr ->
          exists f, getTileInterchangeVals config level = Trap f)).
Proof.
  change (getTileSizeVals config level)
    with (levelVals (tileSizes config) level).
  change (getTileInterchangeVals config level)
    with (levelVals (tileInterchange config) level).
  split; [intros vs; apply levelVals_Done_inv|].
  split; [intros vs; apply levelVals_Done_inv|].
  split; intros attr Hentry; split.
  - by apply levelVals_not_array.
  - by apply levelVals_not_flat.
  - by apply levelVals_not_array.
  - by apply levelVals_not_flat.
Qed.

Lemma level_accessors_Done_inv_witness :
  ((Nat.le (numLevels (tileSizes (LoweringConfigAttr_get [[4; 8]] [] []))) 0
    ∧ [4; 8] = [])
   ∨ exists elems,
       levelEntry (tileSizes (LoweringConfigAttr_get [[4; 8]] [] [])) 0
       = Some (ArrayAttr elems)
       ∧ Forall isInteger elems ∧ length [4; 8] = length elems)
  ∧ getTileSizeVals {| tileSizes := Some [UnitAttr]; tileInterchange := None;
                       nativeVectorSize := None |} 0
    = Trap BadCast
  ∧ exists f,
      getTileInterchangeVals
        {| tileSizes := None;
           tileInterchange :=
             Some [ArrayAttr [IntegerAttr (IntegerType 32 Unsigned)
                                          (APInt.get 32 4); UnitAttr]];
           nativeVectorSize := None |} 0
      = Trap f.
Proof.
  split; [|split].
  - refine (proj1 (level_accessors_Done_inv
                     (LoweringConfigAttr_get [[4; 8]] [] []) 0) [4; 8] _).
    vm_compute. reflexivity.
  - refine (proj1 (proj1 (proj2 (proj2 (level_accessors_Done_inv
      {| tileSizes := Some [UnitAttr]; tileInterchange := None;
         nativeVectorSize := None |} 0))) UnitAttr _) _).
    + reflexivity.
    + reflexivity.
  - refine (proj2 (proj2 (proj2 (proj2 (level_accessors_Done_inv
      {| tileSizes := None;
         tileInterchange :=
           Some [ArrayAttr [IntegerAttr (IntegerType 32 Unsigned)
                                        (APInt.get 32 4); UnitAttr]];
         nativeVectorSize := None |} 0)))
      (ArrayAttr [IntegerAttr (IntegerType 32 Unsigned) (APInt.get 32 4);
                  UnitAttr]) _) _).
    + reflexivity.
    + intros (elems & [= <-] & Hall).
      apply Forall_cons in Hall as [_ Hall].
      apply Forall_cons in Hall as [(ty & value & Heq) _]. discriminate.
Defined.

Lemma decodeElement_integerFault (attr : Attribute) (f : Fault) :
  isInteger attr -> decodeElement attr = Trap f -> integerFault f.
Proof.
  intros (ty & value & ->).
  change (getInt (ty, value) = Trap f -> integerFault f).
  unfold getInt, APInt.getSExtValue, integerFault. cbn [fst snd].
  destruct (isIndex ty || isSignlessInteger ty); [|intros [= <-]; by left].
  case_decide; [done|]. intros [= <-]. by right.
Qed.

Lemma mapM_decodeElement_integerFault (elems : list Attribute) (f : Fault) :
  Forall isInteger elems ->
  mapM decodeElement elems = Trap f -> integerFault f.
Proof.
  induction 1 as [|attr elems Hattr _ IH]; [done|].
  cbn [mapM]. destruct (decodeElement attr) as [v|flt] eqn:Hdec.
  - rewrite exec_bind_Done. destruct (mapM decodeElement elems); [done|].
    rewrite exec_bind_Trap. done.
  - rewrite exec_bind_Trap. intros [= <-].
    by apply (decodeElement_integerFault attr).
Qed.

Lemma levelVals_integerFault (arr : ArrayAttrRef) (level : nat) (f : Fault) :
  (forall entries, arr = Some entries -> Forall isFlatIntegerSequence entries) ->
  levelVals arr level = Trap f -> integerFault f.
Proof.
  intros Hflat. destruct arr as [entries|]; [|done].
  specialize (Hflat entries eq_refl).
  destruct (entries !! level) as [attr|] eqn:Hentry.
  - rewrite (levelVals_decodeLevel entries level attr Hentry).
    rewrite Forall_forall in Hflat.
    destruct (Hflat attr) as (elems & -> & Hints);
      [by eapply list_elem_of_lookup_2|].
    unfold decodeLevel. cbn [cast_ArrayAttr].
    rewrite exec_bind_Done, getIntegerVals_mapM.
    by apply mapM_decodeElement_integerFault.
  - apply lookup_ge_None in Hentry. unfold levelVals.
    by rewrite decide_True.
Qed.

(** X11. On a lowering config that passes [LoweringConfigAttr::verify] no
    accessor fails on a cast or reads outside a vector: the one fault left
    at any level is that of an integer attribute itself, whose type is
    signed or unsigned or whose value does not fit 64 bits, which the
    verifier does not look at. *)
Theorem verified_accessors_faults (config : LoweringConfigAttr) (level : nat)
    (f : Fault)
    (Hverified : LoweringConfigAttr_verify (tileSizes config)
                   (tileInterchange config) (nativeVectorSize config)
                 = success) :
  (getTileSizeVals config level = Trap f -> integerFault f)
  ∧ (getTileInterchangeVals config level = Trap f -> integerFault f)
  ∧ (getNativeVectorSizeVals config = Trap f -> integerFault f).
Proof.
  apply LoweringConfigAttr_verify_success_iff in Hverified
    as ((entries & Hentries & Hsizes) & Hinterchange & Hvector).
  split; [|split].
  - apply levelVals_integerFault. intros entries' Heq.
    rewrite Hentries in Heq. by injection Heq as <-.
  - by apply levelVals_integerFault.
  - unfold getNativeVectorSizeVals.
    destruct (nativeVectorSize config) as [values|]; [|done].
    rewrite getIntegerVals_mapM.
    by apply mapM_decodeElement_integerFault, Hvector.
Qed.

Lemma verified_accessors_faults_witness :
  LoweringConfigAttr_verify
    (Some [ArrayAttr [IntegerAttr (IntegerType 32 Signed) (APInt.get 32 4)]])
    None None = success
  ∧ getTileSizeVals
      {| tileSizes :=
           Some [ArrayAttr [IntegerAttr (IntegerType 32 Signed)
                                        (APInt.get 32 4)]];
         tileInterchange := None; nativeVectorSize := None |} 0
    = Trap NotSignless
  ∧ integerFault NotSignless.
Proof.
  split; [reflexivity|]. split; [vm_compute; reflexivity|].
  refine (proj1 (verified_accessors_faults
    {| tileSizes :=
         Some [ArrayAttr [IntegerAttr (IntegerType 32 Signed)
                                      (APInt.get 32 4)]];
       tileInterchange := None; nativeVectorSize := None |} 0 NotSignless _)
    _).
  - reflexivity.
  - vm_compute. reflexivity.
Defined.

(** ** The attachment helpers on operations *)

(** X12. [setLoweringConfig] followed by [getLoweringConfig] gives the
    config back, a second [setLoweringConfig] replaces the first, and
    setting the config touches neither the interfaces of the operation nor
    its compilation info; [getTileSizes] then reads the levels of that
    config. *)
Theorem setLoweringConfig_get (op : Operation)
    (config config' : LoweringConfigAttr) (level : nat) :
  getLoweringConfig (setLoweringConfig op config) = Some config
  ∧ setLoweringConfig (setLoweringConfig op config') config
    = setLoweringConfig op config
  ∧ partitionableLoopsInterface (setLoweringConfig op config)
    = partitionableLoopsInterface op
  ∧ getCompilationInfo (setLoweringConfig op config) = getCompilationInfo op
  ∧ getTileSizes (setLoweringConfig op config) level
    = getTileSizeVals config level.
Proof.
  split; [apply getLoweringConfig_set|]. split; [|split; [done|split]].
  - unfold setLoweringConfig, setAttr. simpl. by rewrite insert_insert_eq.
  - unfold getCompilationInfo, setLoweringConfig, setAttr. simpl.
    by rewrite lookup_insert_ne.
  - unfold getTileSizes. by rewrite getLoweringConfig_set.
Qed.

(** X13. [setCompilationInfo] followed by [getCompilationInfo] gives the
    attribute back and a second set replaces the first;
    [eraseCompilationInfo] leaves no compilation info, is idempotent, undoes
    a [setCompilationInfo] on an operation that had nothing under the name,
    and changes nothing on such an operation. *)
Theorem compilationInfo_set_erase (op : Operation)
    (info info' : CompilationInfoAttr) :
  getCompilationInfo (setCompilationInfo op info) = Some info
  ∧ setCompilationInfo (setCompilationInfo op info') info
    = setCompilationInfo op info
  ∧ getCompilationInfo (eraseCompilationInfo op) = None
  ∧ getCompilationInfo (eraseCompilationInfo (setCompilationInfo op info))
    = None
  ∧ eraseCompilationInfo (eraseCompilationInfo op) = eraseCompilationInfo op
  ∧ (attrs op !! kCompilationInfoAttrName = None ->
     eraseCompilationInfo (setCompilationInfo op info) = op
     ∧ eraseCompilationInfo op = op).
Proof.
  split; [|split; [|split; [|split; [|split]]]].
  - unfold getCompilationInfo, setCompilationInfo, setAttr. simpl.
    by rewrite lookup_insert_eq.
  - unfold setCompilationInfo, setAttr. simpl. by rewrite insert_insert_eq.
  - apply getCompilationInfo_erase.
  - apply getCompilationInfo_erase.
  - unfold eraseCompilationInfo, removeAttr. simpl.
    by rewrite delete_delete_eq.
  - intros Hnone. destruct op as [name iface dict].
    unfold eraseCompilationInfo, setCompilationInfo, removeAttr, setAttr.
    simpl in *. by rewrite delete_insert_id, delete_id.
Qed.

Lemma compilationInfo_set_erase_witness :
  eraseCompilationInfo
    (setCompilationInfo N1
       (@CompilationInfoAttr_get_tiling sampleDeclarations [[4; 4]] [] [] [32]))
  = N1
  ∧ eraseCompilationInfo N1 = N1.
Proof.
  refine (proj2 (proj2 (proj2 (proj2 (proj2
    (compilationInfo_set_erase N1
       (@CompilationInfoAttr_get_tiling sampleDeclarations [[4; 4]] [] [] [32])
       (@CompilationInfoAttr_get_tiling sampleDeclarations [] [] [] [])))))) _).
  vm_compute. reflexivity.
Defined.

Section Attachment.
Context `{Declarations}.

Lemma opDistribution_ext (op op' : Operation) :
  partitionableLoopsInterface op' = partitionableLoopsInterface op ->
  getLoweringConfig op' = getLoweringConfig op ->
  opDistribution op' = opDistribution op.
Proof. unfold opDistribution. by intros -> ->. Qed.

Lemma scanComputeOps_fmap (g : Operation -> Operation)
    (front front' : Operation) (computeOps : list Operation)
    (dts ich : list Z) :
  (forall op, opDistribution (g op) = opDistribution op) ->
  outcome (scanComputeOps front' (g <$> computeOps) dts ich)
  = outcome (scanComputeOps front computeOps dts ich).
Proof.
  intros Hg. revert dts ich.
  induction computeOps as [|op rest IH]; intros dts ich; [done|].
  cbn [fmap list_fmap scanComputeOps]. rewrite Hg.
  destruct (opDistribution op) as [[[curr currInterchange]|flt]|];
    [|done|apply IH].
  destruct (decide (dts = [])); [apply IH|].
  destruct (decide (curr ≠ dts ∨ currInterchange ≠ ich)); [done|apply IH].
Qed.

(** X14. The compilation info of an operation plays no part in the
    distribution: setting or erasing it leaves what the operation brings to
    the comparison unchanged, so erasing the compilation info of every
    compute operation leaves the outcome of
    [getDistributionTileConfigFromLoweringConfig] as it was. *)
Theorem compilationInfo_not_read (op : Operation) (info : CompilationInfoAttr)
    (computeOps : list Operation) :
  opDistribution (setCompilationInfo op info) = opDistribution op
  ∧ opDistribution (eraseCompilationInfo op) = opDistribution op
  ∧ outcome (getDistributionTileConfigFromLoweringConfig
               (eraseCompilationInfo <$> computeOps))
    = outcome (getDistributionTileConfigFromLoweringConfig computeOps).
Proof.
  assert (Herase : forall op',
            opDistribution (eraseCompilationInfo op') = opDistribution op').
  { intros op'. apply opDistribution_ext; [done|].
    apply getLoweringConfig_eraseCompilationInfo. }
  split; [|split; [apply Herase|]].
  - apply opDistribution_ext; [done|].
    unfold getLoweringConfig, setCompilationInfo, setAttr. simpl.
    by rewrite lookup_insert_ne.
  - unfold getDistributionTileConfigFromLoweringConfig.
    destruct computeOps as [|front rest]; [done|].
    apply (scanComputeOps_fmap eraseCompilationInfo front
             (eraseCompilationInfo front) (front :: rest) [] [] Herase).
Qed.

End Attachment.

(** ** The attachment helpers on the entry point *)

(** X15. [setTranslationInfo] followed by [getTranslationInfo] gives the
    translation info back.  A non-empty workgroup size is stored on the
    entry point as index-typed integers and [getWorkgroupSize] reads it
    back; an empty one is not stored, so the workgroup size the entry point
    had before stays in place. *)
Theorem setTranslationInfo_roundtrip (entryPointOp : ExecutableEntryPointOp)
    (info : TranslationInfoAttr) (wgSize : list Z)
    (HwgSize : Forall is_int64 wgSize) :
  getTranslationInfo (setTranslationInfo entryPointOp info wgSize) = Some info
  ∧ (wgSize ≠ [] ->
     workgroup_size (setTranslationInfo entryPointOp info wgSize)
     = Some (getIndexIntegerArrayAttr wgSize)
     ∧ getWorkgroupSize (setTranslationInfo entryPointOp info wgSize)
       = Done wgSize)
  ∧ workgroup_size (setTranslationInfo entryPointOp info [])
    = workgroup_size entryPointOp
  ∧ getWorkgroupSize (setTranslationInfo entryPointOp info [])
    = getWorkgroupSize entryPointOp.
Proof.
  split; [apply getTranslationInfo_set|]. split; [|done].
  intros Hne. pose proof (getWorkgroupSize_set entryPointOp info wgSize HwgSize)
    as Hget.
  destruct wgSize as [|v rest]; [done|]. by split.
Qed.

Lemma setTranslationInfo_roundtrip_witness :
  getWorkgroupSize
    (setTranslationInfo {| entryPointAttrs := ∅; workgroup_size := None |}
       (TranslationInfoAttr_get 2%N []) [64; 2; 1])
  = Done [64; 2; 1].
Proof.
  assert (Hwg : Forall is_int64 [64; 2; 1]) by by_decide.
  refine (proj2 (proj1 (proj2 (setTranslationInfo_roundtrip
    {| entryPointAttrs := ∅; workgroup_size := None |}
    (TranslationInfoAttr_get 2%N []) [64; 2; 1] Hwg)) _)).
  discriminate.
Defined.

(** ** The vector of distributed tile sizes, without the ordering *)

Lemma guarded_writes (sizes : list Z) (loops : list N) (curr : list Z) :
  (Forall (fun id => ¬ writesOutside sizes (length curr) id) loops
   ∧ foldl (fun acc loopID =>
              curr ← acc;
              if (loopID <? N.of_nat (length sizes))%N then
                size ← load sizes (N.to_nat loopID);
                store curr (N.to_nat loopID) size
              else Done curr)
           (Done curr) loops
     = Done (foldl (writeTile sizes) curr loops))
  ∨ (Exists (writesOutside sizes (length curr)) loops
   ∧ foldl (fun acc loopID =>
              curr ← acc;
              if (loopID <? N.of_nat (length sizes))%N then
                size ← load sizes (N.to_nat loopID);
                store curr (N.to_nat loopID) size
              else Done curr)
           (Done curr) loops
     = Trap IndexOutOfRange).
Proof.
  revert curr. induction loops as [|id loops IH]; intros curr.
  - left. by split.
  - cbn [foldl]. rewrite exec_bind_Done. unfold writeTile at 2.
    destruct (N.ltb_spec id (N.of_nat (length sizes))) as [Hlt|Hge].
    + unfold load.
      destruct (lookup_lt_is_Some_2 sizes (N.to_nat id)) as [v Hv]; [lia|].
      rewrite Hv, exec_bind_Done. unfold store. simpl.
      destruct (decide (N.to_nat id < length curr)%nat) as [Hin|Hout].
      * destruct (IH (<[N.to_nat id := v]> curr)) as [[Hok Hrun]|[Hbad Hrun]];
          rewrite length_insert in *.
        -- left. split; [|done]. constructor; [|done].
           unfold writesOutside. lia.
        -- right. split; [by right|done].
      * right. split.
        -- left. unfold writesOutside. lia.
        -- apply foldl_Trap. intros b. reflexivity.
    + destruct (IH curr) as [[Hok Hrun]|[Hbad Hrun]].
      * left. split; [|done]. constructor; [|done].
        unfold writesOutside. lia.
      * right. split; [by right|done].
Qed.

(** X16. [currDistributedTileSizes] needs no ordering of the loop ids to
    stay inside its vector, only that no loop id with a first-level tile
    size reaches the resized length.  When some loop id does, a write falls
    outside the vector, and that is the one fault the function has.
    Otherwise the vector has the resized length and holds, at each index, the
    tile size of that partitionable loop or zero. *)
Theorem currDistributedTileSizes_bounds (loops : list N) (sizes : list Z) :
  (currDistributedTileSizes loops sizes = Trap IndexOutOfRange <->
   Exists (writesOutside sizes (resizedLength loops)) loops)
  ∧ (forall f, currDistributedTileSizes loops sizes = Trap f ->
               f = IndexOutOfRange)
  ∧ (forall arr, currDistributedTileSizes loops sizes = Done arr ->
       length arr = resizedLength loops
       ∧ forall i, (i < length arr)%nat ->
           arr !! i = Some (distributedEntry loops sizes i)).
Proof.
  unfold currDistributedTileSizes, resizedLength.
  set (n := match last loops with
            | Some back => N.to_nat (unsigned_add back 1)
            | None => 0%nat
            end).
  assert (Hinit : match last loops with
                  | Some back => replicate (N.to_nat (unsigned_add back 1)) 0
                  | None => []
                  end = replicate n 0).
  { unfold n. by destruct (last loops). }
  rewrite Hinit.
  destruct (guarded_writes sizes loops (replicate n 0))
    as [[Hok Hrun]|[Hbad Hrun]]; rewrite length_replicate in *; rewrite Hrun.
  - split; [|split; [done|]].
    + split; [done|]. intros Hbad. exfalso.
      apply Exists_exists in Hbad as (id & Hin & Hid).
      rewrite Forall_forall in Hok. by apply (Hok id).
    + intros arr [= <-].
      split; [by rewrite foldl_writeTile_length, length_replicate|].
      intros i Hi. rewrite foldl_writeTile_length in Hi.
      rewrite foldl_writeTile_lookup by done. unfold distributedEntry.
      case_decide; [done|]. rewrite length_replicate in Hi.
      by rewrite lookup_replicate_2.
  - split; [done|]. split; [by intros f [= <-]|done].
Qed.

(** ** What a run of the scan says about the operations *)

Section Outcome.
Context `{Declarations}.

(** The output vectors are those the scan started from, or the pair of
    one of the operations. *)
Lemma scanComputeOps_origin (front : Operation) (computeOps : list Operation)
    (dts ich : list Z) (r : Distribution) :
  scanComputeOps front computeOps dts ich = Done r ->
  (distributedTileSizes r = dts ∧ interchange r = ich)
  ∨ exists op, op ∈ computeOps
               ∧ contributes op (distributedTileSizes r, interchange r).
Proof.
  revert dts ich. induction computeOps as [|op rest IH]; intros dts ich.
  - intros [= <-]. by left.
  - assert (Hlift : forall dts' ich',
      scanComputeOps front rest dts' ich' = Done r ->
      (distributedTileSizes r = dts' ∧ interchange r = ich')
      ∨ exists op', op' ∈ op :: rest
           ∧ contributes op' (distributedTileSizes r, interchange r)).
    { intros dts' ich' Hrun.
      destruct (IH dts' ich' Hrun) as [?|(op' & Hin & Hop')]; [by left|].
      right. exists op'. split; [by right|done]. }
    cbn [scanComputeOps].
    destruct (opDistribution op) as [[[curr currInterchange]|flt]|] eqn:Hop;
      [|done|apply Hlift].
    destruct (decide (dts = [])).
    + intros Hrun. destruct (Hlift _ _ Hrun) as [[Hd Hi]|?]; [|by right].
      right. exists op. split; [by left|].
      unfold contributes. by rewrite Hd, Hi.
    + destruct (decide (curr ≠ dts ∨ currInterchange ≠ ich));
        [|apply Hlift].
      intros [= <-]. by left.
Qed.

(** A failure is reported with non-empty tile sizes and on account of an
    operation that brings another pair. *)
Lemma scanComputeOps_failure_inv (front : Operation)
    (computeOps : list Operation) (dts ich : list Z) (r : Distribution) :
  scanComputeOps front computeOps dts ich = Done r ->
  failed (result r) = true ->
  distributedTileSizes r ≠ []
  ∧ exists op p, op ∈ computeOps ∧ contributes op p
                 ∧ p ≠ (distributedTileSizes r, interchange r).
Proof.
  revert dts ich. induction computeOps as [|op rest IH]; intros dts ich.
  - intros [= <-]. done.
  - assert (Hlift : forall dts' ich',
      scanComputeOps front rest dts' ich' = Done r ->
      failed (result r) = true ->
      distributedTileSizes r ≠ []
      ∧ exists op' p, op' ∈ op :: rest ∧ contributes op' p
                      ∧ p ≠ (distributedTileSizes r, interchange r)).
    { intros dts' ich' Hrun Hfailed.
      destruct (IH dts' ich' Hrun Hfailed) as (Hne & op' & p & Hin & Hrest).
      split; [done|]. exists op', p. split; [by right|done]. }
    cbn [scanComputeOps].
    destruct (opDistribution op) as [[[curr currInterchange]|flt]|] eqn:Hop;
      [|done|apply Hlift].
    destruct (decide (dts = [])); [apply Hlift|].
    destruct (decide (curr ≠ dts ∨ currInterchange ≠ ich)) as [Hne|];
      [|apply Hlift].
    intros [= <-] _. simpl. split; [done|].
    exists op, (curr, currInterchange). split; [by left|]. split; [done|].
    intros [= -> ->]. tauto.
Qed.

(** On success every operation that brings non-empty tile sizes brings the
    pair that is returned. *)
Lemma scanComputeOps_success_inv (front : Operation)
    (computeOps : list Operation) (dts ich : list Z) (r : Distribution) :
  scanComputeOps front computeOps dts ich = Done r ->
  result r = success ->
  (dts ≠ [] -> distributedTileSizes r = dts ∧ interchange r = ich)
  ∧ forall op p, op ∈ computeOps -> contributes op p -> p.1 ≠ [] ->
                 p = (distributedTileSizes r, interchange r).
Proof.
  revert dts ich. induction computeOps as [|op rest IH]; intros dts ich.
  - intros [= <-] _. split; [done|]. intros op p Hin.
    by apply elem_of_nil in Hin.
  - cbn [scanComputeOps].
    destruct (opDistribution op) as [[[curr currInterchange]|flt]|] eqn:Hop;
      [|done|].
    + destruct (decide (dts = [])) as [->|Hdts].
      * intros Hrun Hres. destruct (IH _ _ Hrun Hres) as [Hkeep Hagree].
        split; [done|]. intros op' p Hin Hp Hne.
        apply elem_of_cons in Hin as [->|Hin]; [|by eapply Hagree].
        unfold contributes in Hp. rewrite Hop in Hp. injection Hp as <-.
        destruct (Hkeep Hne) as [-> ->]. done.
      * destruct (decide (curr ≠ dts ∨ currInterchange ≠ ich)) as [|Heq].
        { intros [= <-]. done. }
        assert (curr = dts ∧ currInterchange = ich) as [-> ->].
        { destruct (decide (curr = dts)),
                   (decide (currInterchange = ich)); tauto. }
        intros Hrun Hres. destruct (IH _ _ Hrun Hres) as [Hkeep Hagree].
        split; [done|]. intros op' p Hin Hp Hne.
        apply elem_of_cons in Hin as [->|Hin]; [|by eapply Hagree].
        unfold contributes in Hp. rewrite Hop in Hp. injection Hp as <-.
        destruct (Hkeep Hdts) as [-> ->]. done.
    + intros Hrun Hres. destruct (IH _ _ Hrun Hres) as [Hkeep Hagree].
      split; [done|]. intros op' p Hin Hp Hne.
      apply elem_of_cons in Hin as [->|Hin]; [|by eapply Hagree].
      unfold contributes in Hp. congruence.
Qed.

(** X17. When [getDistributionTileConfigFromLoweringConfig] succeeds, every
    compute operation that brings non-empty distributed tile sizes brings
    exactly the pair that is returned; and returned tile sizes that are not
    empty are those of one of the operations, together with its
    interchange. *)
Theorem success_agrees (computeOps : list Operation) (r : Distribution)
    (Hrun : getDistributionTileConfigFromLoweringConfig computeOps = Done r)
    (Hres : result r = success) :
  (forall op p, op ∈ computeOps -> contributes op p -> p.1 ≠ [] ->
                p = (distributedTileSizes r, interchange r))
  ∧ (distributedTileSizes r ≠ [] ->
     exists op, op ∈ computeOps
                ∧ contributes op (distributedTileSizes r, interchange r)).
Proof.
  unfold getDistributionTileConfigFromLoweringConfig in Hrun.
  destruct computeOps as [|front rest].
  - injection Hrun as <-. split; [|done]. intros op p Hin.
    by apply elem_of_nil in Hin.
  - split.
    + by apply (scanComputeOps_success_inv front (front :: rest) [] [] r).
    + intros Hne.
      destruct (scanComputeOps_origin _ _ _ _ _ Hrun) as [[Hd _]|?]; done.
Qed.

(** X18. When the function fails, the diagnostic is on the first compute
    operation, the tile sizes it leaves in the output are not empty and are
    those of one of the operations, and another operation brings a pair
    that differs from the output. *)
Theorem failure_shape (computeOps : list Operation) (r : Distribution)
    (Hrun : getDistributionTileConfigFromLoweringConfig computeOps = Done r)
    (Hfailed : failed (result r) = true) :
  (exists front, head computeOps = Some front
                 ∧ result r = failure (inconsistentDistribution front))
  ∧ distributedTileSizes r ≠ []
  ∧ (exists op, op ∈ computeOps
                ∧ contributes op (distributedTileSizes r, interchange r))
  ∧ (exists op p, op ∈ computeOps ∧ contributes op p
                  ∧ p ≠ (distributedTileSizes r, interchange r)).
Proof.
  split; [by apply getDistribution_anchor|].
  unfold getDistributionTileConfigFromLoweringConfig in Hrun.
  destruct computeOps as [|front rest].
  { injection Hrun as <-. done. }
  destruct (scanComputeOps_failure_inv _ _ _ _ _ Hrun Hfailed) as [Hne Hother].
  split; [done|]. split; [|done].
  destruct (scanComputeOps_origin _ _ _ _ _ Hrun) as [[Hd _]|?]; done.
Qed.

Lemma scanComputeOps_fault (front : Operation) (computeOps : list Operation)
    (dts ich : list Z) (f : Fault) :
  scanComputeOps front computeOps dts ich = Trap f ->
  exists op, op ∈ computeOps ∧ opDistribution op = Some (Trap f).
Proof.
  revert dts ich. induction computeOps as [|op rest IH]; intros dts ich;
    [done|].
  assert (Hlift : forall dts' ich',
    scanComputeOps front rest dts' ich' = Trap f ->
    exists op', op' ∈ op :: rest ∧ opDistribution op' = Some (Trap f)).
  { intros dts' ich' Hrun. destruct (IH _ _ Hrun) as (op' & Hin & Hop').
    exists op'. split; [by right|done]. }
  cbn [scanComputeOps].
  destruct (opDistribution op) as [[[curr currInterchange]|flt]|] eqn:Hop;
    [| |apply Hlift].
  - destruct (decide (dts = [])); [apply Hlift|].
    destruct (decide (curr ≠ dts ∨ currInterchange ≠ ich)); [done|].
    apply Hlift.
  - intros [= <-]. exists op. split; [by left|done].
Qed.

(** X19. The scan has no fault of its own: when the function stops on a
    fault, one of the compute operations has the interface and a lowering
    config, and it is the reading of that operation's first level or the
    building of its vector that stops on this fault. *)
Theorem fault_comes_from_an_operation (computeOps : list Operation)
    (f : Fault)
    (Hrun : getDistributionTileConfigFromLoweringConfig computeOps = Trap f) :
  exists op, op ∈ computeOps
             ∧ ¬ skipped op
             ∧ opDistribution op = Some (Trap f).
Proof.
  unfold getDistributionTileConfigFromLoweringConfig in Hrun.
  destruct computeOps as [|front rest]; [done|].
  destruct (scanComputeOps_fault _ _ _ _ _ Hrun) as (op & Hin & Hop).
  exists op. split; [done|]. split; [|done].
  intros Hskip%opDistribution_skipped. congruence.
Qed.

Lemma scanComputeOps_outcome_filter (front front' : Operation)
    (computeOps : list Operation) (dts ich : list Z) :
  outcome (scanComputeOps front'
             (filter (fun op => is_Some (opDistribution op)) computeOps)
             dts ich)
  = outcome (scanComputeOps front computeOps dts ich).
Proof.
  revert dts ich. induction computeOps as [|op rest IH]; intros dts ich;
    [done|].
  rewrite filter_cons. cbn [scanComputeOps].
  destruct (opDistribution op) as [contribution|] eqn:Hop.
  - rewrite decide_True by (by eexists). cbn [scanComputeOps].
    rewrite Hop. destruct contribution as [[curr currInterchange]|flt];
      [|done].
    destruct (decide (dts = [])); [apply IH|].
    destruct (decide (curr ≠ dts ∨ currInterchange ≠ ich)); [done|apply IH].
  - rewrite decide_False by (by intros [? ?]). apply IH.
Qed.

(** X20. Operations that lack the interface or a lowering config do not
    bear on the outcome: dropping all of them from the sequence gives the
    same fault, or the same output vectors with success for both or
    failure for both. *)
Theorem skipped_ops_do_not_matter (computeOps : list Operation) :
  outcome (getDistributionTileConfigFromLoweringConfig
             (filter (fun op => is_Some (opDistribution op)) computeOps))
  = outcome (getDistributionTileConfigFromLoweringConfig computeOps)
  ∧ Forall (fun op => ¬ skipped op)
           (filter (fun op => is_Some (opDistribution op)) computeOps).
Proof.
  split.
  - unfold getDistributionTileConfigFromLoweringConfig.
    destruct computeOps as [|front rest]; [done|].
    destruct (filter _ (front :: rest)) as [|front' rest'] eqn:Hfilter.
    + rewrite <- (scanComputeOps_outcome_filter front front (front :: rest)).
      by rewrite Hfilter.
    + rewrite <- Hfilter. apply scanComputeOps_outcome_filter.
  - apply Forall_forall. intros op [Hsome _]%list_elem_of_filter.
    intros Hskip%opDistribution_skipped. rewrite Hskip in Hsome.
    by destruct Hsome.
Qed.

End Outcome.

Lemma success_agrees_witness :
  (forall op p, op ∈ [N0; N1; N2_same] ->
     @contributes sampleDeclarations op p -> p.1 ≠ [] -> p = ([4; 4], []))
  ∧ ([4; 4] ≠ @nil Z ->
     exists op, op ∈ [N0; N1; N2_same]
                ∧ @contributes sampleDeclarations op ([4; 4], [])).
Proof.
  refine (@success_agrees sampleDeclarations [N0; N1; N2_same]
    {| result := success;
       distributedTileSizes := [4; 4]; interchange := [] |} _ _).
  - vm_compute. reflexivity.
  - reflexivity.
Defined.

Lemma failure_shape_witness :
  (exists front, head [N0; N1; N2_other] = Some front
     ∧ failure (inconsistentDistribution N0)
       = failure (inconsistentDistribution front))
  ∧ [4; 4] ≠ @nil Z
  ∧ (exists op, op ∈ [N0; N1; N2_other]
                ∧ @contributes sampleDeclarations op ([4; 4], []))
  ∧ (exists op p, op ∈ [N0; N1; N2_other]
                  ∧ @contributes sampleDeclarations op p ∧ p ≠ ([4; 4], [])).
Proof.
  refine (@failure_shape sampleDeclarations [N0; N1; N2_other]
    {| result := failure (inconsistentDistribution N0);
       distributedTileSizes := [4; 4]; interchange := [] |} _ _).
  - vm_compute. reflexivity.
  - reflexivity.
Defined.

Lemma fault_comes_from_an_operation_witness :
  exists op,
    op ∈ [N1; configuredOp "M" [1; 0]%N [[4; 4]] []]
    ∧ ¬ skipped op
    ∧ @opDistribution sampleDeclarations op = Some (Trap IndexOutOfRange).
Proof.
  refine (@fault_comes_from_an_operation sampleDeclarations
    [N1; configuredOp "M" [1; 0]%N [[4; 4]] []] IndexOutOfRange _).
  vm_compute. reflexivity.
Defined.

(** ** Accessors on verified attributes *)

Section Verified.
Context `{Declarations}.

(** X21. [getDispatchLoweringPassPipeline] returns the pipeline a
    translation info was built with; and on every translation info that
    passes [TranslationInfoAttr::verify] it returns a pipeline, which does
    not exceed [None], instead of dereferencing a null attribute. *)
Theorem verified_pipeline (info : TranslationInfoAttr)
    (pipeline : DispatchLoweringPassPipeline) (workload : list Z)
    (Hverified : TranslationInfoAttr_verify (passPipeline info)
                   (workloadPerWorkgroup info) = success) :
  (exists v, getDispatchLoweringPassPipeline info = Done v
             ∧ (v <= DispatchLoweringPassPipeline_None)%N)
  ∧ getDispatchLoweringPassPipeline (TranslationInfoAttr_get pipeline workload)
    = Done pipeline
  ∧ getDispatchLoweringPassPipeline
      {| passPipeline := None;
         workloadPerWorkgroup := workloadPerWorkgroup info |}
    = Trap NullAttribute.
Proof.
  split; [|done].
  apply TranslationInfoAttr_verify_success_iff in Hverified
    as (v & Hv & Hle).
  exists v. unfold getDispatchLoweringPassPipeline. by rewrite Hv.
Qed.

(** X22. On a compilation info that passes [CompilationInfoAttr::verify],
    [getWorkgroupSizeVals] fails on no cast: it returns the empty sequence
    when the workgroup size is absent, and otherwise a value or the fault of
    an integer attribute whose type is not signless or whose value does not
    fit 64 bits. *)
Theorem verified_workgroupSize (info : CompilationInfoAttr) (f : Fault)
    (Hverified : CompilationInfoAttr_verify (loweringConfig info)
                   (translationInfo info) (workgroupSize info) = success) :
  (workgroupSize info = None -> getWorkgroupSizeVals info = Done [])
  ∧ (getWorkgroupSizeVals info = Trap f -> integerFault f)
  ∧ (forall vs, getWorkgroupSizeVals info = Done vs ->
       length vs = numLevels (workgroupSize info) ∧ Forall is_int64 vs).
Proof.
  apply CompilationInfoAttr_verify_wellFormed in Hverified
    as (config & translation & _ & _ & _ & _ & Hints).
  unfold getWorkgroupSizeVals.
  destruct (workgroupSize info) as [entries|]; cbv beta iota;
    cbn [numLevels].
  - split; [done|]. split.
    + rewrite getIntegerVals_mapM.
      by apply mapM_decodeElement_integerFault, Hints.
    + intros vs Hvs. rewrite getIntegerVals_mapM in Hvs.
      by apply mapM_decodeElement_Done_inv in Hvs as (? & _ & ?).
  - split; [done|]. split; [done|]. intros vs [= <-]. by split.
Qed.

End Verified.

Lemma verified_pipeline_witness :
  exists v,
    getDispatchLoweringPassPipeline (TranslationInfoAttr_get 2%N [8; 8])
    = Done v
    ∧ (v <= @DispatchLoweringPassPipeline_None sampleDeclarations)%N.
Proof.
  refine (proj1 (@verified_pipeline sampleDeclarations
                   (TranslationInfoAttr_get 2%N [8; 8]) 0%N [] _)).
  reflexivity.
Defined.

Lemma verified_workgroupSize_witness :
  getWorkgroupSizeVals
    (@CompilationInfoAttr_get_tiling sampleDeclarations
       [[4; 4]] [] [] [32; 2]) = Done [32; 2]
  ∧ length [32; 2]
    = numLevels (workgroupSize
        (@CompilationInfoAttr_get_tiling sampleDeclarations
           [[4; 4]] [] [] [32; 2]))
  ∧ Forall is_int64 [32; 2].
Proof.
  split; [vm_compute; reflexivity|].
  refine (proj2 (proj2 (@verified_workgroupSize sampleDeclarations
    (@CompilationInfoAttr_get_tiling sampleDeclarations [[4; 4]] [] [] [32; 2])
    BadCast _)) [32; 2] _).
  - vm_compute. reflexivity.
  - vm_compute. reflexivity.
Defined.
